(** * Image inspection on ELF platforms: section registries and the
      static-binary ELF parser of the Swift runtime

    A shallow embedding of

      - stdlib/public/runtime/ImageInspectionELF.cpp     (Module [ImageInspectionELF])
      - stdlib/public/runtime/ImageInspectionStatic.cpp  (Module [ImageInspectionStatic])
      - stdlib/public/runtime/StaticBinaryELF.cpp        (Module [StaticELF])

    and the properties of the runtime's specification proved (or refuted)
    on it. *)

From Stdlib Require Import List ZArith NArith Lia Bool.
From Stdlib.Strings Require Import Byte.
Import ListNotations.

(* ===================================================================== *)
(** * Shared types (ImageInspection.h) *)
(* ===================================================================== *)

(** [struct SectionInfo { uint64_t size; const char *data; }]: the size is
    an unsigned byte count, the pointer is an address ([0] is nullptr). *)
Record SectionInfo : Type := mkSectionInfo { data : N; size : N }.

(** The two registries of the runtime. *)
Inductive Registry : Type := ProtocolConformance | TypeMetadata.

Definition Registry_eqb (a b : Registry) : bool :=
  match a, b with
  | ProtocolConformance, ProtocolConformance => true
  | TypeMetadata, TypeMetadata => true
  | _, _ => false
  end.

(** One call of a drain callback, with the arguments it received. *)
Inductive Callback : Type :=
| addImageProtocolConformanceBlockCallback (conformances : N) (conformancesSize : N)
| addImageTypeMetadataRecordBlockCallback (records : N) (recordsSize : N).

Definition callbackSize (c : Callback) : N :=
  match c with
  | addImageProtocolConformanceBlockCallback _ n => n
  | addImageTypeMetadataRecordBlockCallback _ n => n
  end.

(** The callback of a registry applied to a block. *)
Definition callbackOf (r : Registry) (b : SectionInfo) : Callback :=
  match r with
  | ProtocolConformance => addImageProtocolConformanceBlockCallback (data b) (size b)
  | TypeMetadata => addImageTypeMetadataRecordBlockCallback (data b) (size b)
  end.

Definition nonEmpty (b : SectionInfo) : bool := (0 <? size b)%N.

(** The entry points of a registry file, as the image-load hook and the
    runtime start-up call them. *)
Inductive Entry : Type :=
| Add (r : Registry) (block : SectionInfo)
| Initialize (r : Registry).

Definition addOf (c : Registry * SectionInfo) : Entry := Add (fst c) (snd c).

(** The blocks a list of contributions hands to registry [r], in order. *)
Definition blocksFor (r : Registry) (cs : list (Registry * SectionInfo))
  : list SectionInfo :=
  map snd (filter (fun c => Registry_eqb (fst c) r) cs).

(* ===================================================================== *)
(** * A monad for the runtime's global state and its callback trace *)
(* ===================================================================== *)

(** A computation over globals [G]: the drain callbacks it made, in order,
    and the value and globals it ended with; [None] when a failed [assert]
    (or, with NDEBUG, the null lock it guards against) ended the process. *)
Definition Run (G A : Type) : Type := G -> list Callback * option (A * G).

Definition ret {G A} (a : A) : Run G A := fun g => ([], Some (a, g)).

Definition bind {G A B} (m : Run G A) (k : A -> Run G B) : Run G B :=
  fun g =>
    match m g with
    | (t, None) => (t, None)
    | (t, Some (a, g')) => let (t', r) := k a g' in (t ++ t', r)
    end.

Definition get {G} : Run G G := fun g => ([], Some (g, g)).
Definition put {G} (g : G) : Run G unit := fun _ => ([], Some (tt, g)).
Definition call {G} (c : Callback) : Run G unit := fun g => ([c], Some (tt, g)).
Definition assertion {G} (b : bool) : Run G unit :=
  fun g => if b then ([], Some (tt, g)) else ([], None).

Declare Scope run_scope.
Delimit Scope run_scope with run.
Notation "x <- m ;; k" := (bind m (fun x => k))
  (at level 61, m at next level, right associativity) : run_scope.
Notation "m ;; k" := (bind m (fun _ => k))
  (at level 61, right associativity) : run_scope.
Local Open Scope run_scope.

(** [for (auto block : blocks) body(block);] *)
Fixpoint forEach {G} (blocks : list SectionInfo) (body : SectionInfo -> Run G unit)
  : Run G unit :=
  match blocks with
  | [] => ret tt
  | b :: rest => body b ;; forEach rest body
  end.

(** A sequence of entry-point calls, run one after the other. *)
Fixpoint execAll {G} (exec : Entry -> Run G unit) (es : list Entry) : Run G unit :=
  match es with
  | [] => ret tt
  | e :: rest => exec e ;; execAll exec rest
  end.

Definition trace {G A} (o : list Callback * option (A * G)) : list Callback := fst o.
Definition final {G A} (o : list Callback * option (A * G)) : option G :=
  option_map snd (snd o).

(* ===================================================================== *)
(** * ImageInspectionELF.cpp: the registries of dynamically linked images *)
(* ===================================================================== *)

Module ImageInspectionELF.

(** [Mutex]: calls are modelled one at a time, in the order the locks
    serialise them, so a mutex carries no state here. *)
Inductive Mutex : Type := NewMutex.

(** The file's statics; a pointer is [None] for nullptr.  The two
    [onceToken]s are the function-local statics of the two [addImage...]
    functions. *)
Record Globals : Type := mkGlobals {
  protocolConformanceLock : option Mutex;
  protocolConformanceBlocks : option (list SectionInfo);
  typeMetadataLock : option Mutex;
  typeMetadataRecordBlocks : option (list SectionInfo);
  protocolConformanceOnceToken : bool;
  typeMetadataOnceToken : bool
}.

Definition initial : Globals :=
  mkGlobals None None None None false false.

Definition isNull {A} (p : option A) : bool :=
  match p with None => true | Some _ => false end.

Definition addImageProtocolConformanceBlock (block : SectionInfo) : Run Globals unit :=
  g <- get ;;
  (if protocolConformanceOnceToken g then ret tt
   else put (mkGlobals (Some NewMutex) (Some [])
               (typeMetadataLock g) (typeMetadataRecordBlocks g)
               true (typeMetadataOnceToken g))) ;;
  if (0 <? size block)%N then
    g <- get ;;
    (* ScopedLock guard( *protocolConformanceLock ) dereferences the lock *)
    assertion (negb (isNull (protocolConformanceLock g))) ;;
    match protocolConformanceBlocks g with
    | None => call (addImageProtocolConformanceBlockCallback (data block) (size block))
    | Some blocks =>
        put (mkGlobals (protocolConformanceLock g) (Some (blocks ++ [block]))
               (typeMetadataLock g) (typeMetadataRecordBlocks g)
               (protocolConformanceOnceToken g) (typeMetadataOnceToken g))
    end
  else ret tt.

Definition initializeProtocolConformanceLookup : Run Globals unit :=
  g <- get ;;
  assertion (negb (isNull (protocolConformanceLock g))) ;;
  match protocolConformanceBlocks g with
  | Some blocks =>
      forEach blocks (fun block =>
        call (addImageProtocolConformanceBlockCallback (data block) (size block))) ;;
      put (mkGlobals (protocolConformanceLock g) None
             (typeMetadataLock g) (typeMetadataRecordBlocks g)
             (protocolConformanceOnceToken g) (typeMetadataOnceToken g))
  | None => ret tt
  end.

Definition addImageTypeMetadataRecordBlock (block : SectionInfo) : Run Globals unit :=
  g <- get ;;
  (if typeMetadataOnceToken g then ret tt
   else put (mkGlobals (protocolConformanceLock g) (protocolConformanceBlocks g)
               (Some NewMutex) (Some [])
               (protocolConformanceOnceToken g) true)) ;;
  if (0 <? size block)%N then
    g <- get ;;
    (* ScopedLock guard( *typeMetadataLock ) dereferences the lock *)
    assertion (negb (isNull (typeMetadataLock g))) ;;
    match typeMetadataRecordBlocks g with
    | None => call (addImageTypeMetadataRecordBlockCallback (data block) (size block))
    | Some blocks =>
        put (mkGlobals (protocolConformanceLock g) (protocolConformanceBlocks g)
               (typeMetadataLock g) (Some (blocks ++ [block]))
               (protocolConformanceOnceToken g) (typeMetadataOnceToken g))
    end
  else ret tt.

Definition initializeTypeMetadataRecordLookup : Run Globals unit :=
  g <- get ;;
  assertion (negb (isNull (typeMetadataLock g))) ;;
  match typeMetadataRecordBlocks g with
  | Some blocks =>
      forEach blocks (fun block =>
        call (addImageTypeMetadataRecordBlockCallback (data block) (size block))) ;;
      put (mkGlobals (protocolConformanceLock g) (protocolConformanceBlocks g)
             (typeMetadataLock g) None
             (protocolConformanceOnceToken g) (typeMetadataOnceToken g))
  | None => ret tt
  end.

Definition exec (e : Entry) : Run Globals unit :=
  match e with
  | Add ProtocolConformance b => addImageProtocolConformanceBlock b
  | Add TypeMetadata b => addImageTypeMetadataRecordBlock b
  | Initialize ProtocolConformance => initializeProtocolConformanceLookup
  | Initialize TypeMetadata => initializeTypeMetadataRecordLookup
  end.

Definition run (es : list Entry) (g : Globals) := execAll exec es g.

(** The registry's lock and buffer, by registry. *)
Definition lockOf (r : Registry) (g : Globals) : option Mutex :=
  match r with
  | ProtocolConformance => protocolConformanceLock g
  | TypeMetadata => typeMetadataLock g
  end.

Definition bufferOf (r : Registry) (g : Globals) : option (list SectionInfo) :=
  match r with
  | ProtocolConformance => protocolConformanceBlocks g
  | TypeMetadata => typeMetadataRecordBlocks g
  end.

Definition onceOf (r : Registry) (g : Globals) : bool :=
  match r with
  | ProtocolConformance => protocolConformanceOnceToken g
  | TypeMetadata => typeMetadataOnceToken g
  end.

End ImageInspectionELF.

(* ===================================================================== *)
(** * ImageInspectionStatic.cpp: the registries of a static executable *)
(* ===================================================================== *)

Module ImageInspectionStatic.

(** [static SectionInfo protocolConformances; static SectionInfo typeMetadata;]
    Statics are zero-initialised. *)
Record Globals : Type := mkGlobals {
  protocolConformances : SectionInfo;
  typeMetadata : SectionInfo
}.

Definition zeroSectionInfo : SectionInfo := mkSectionInfo 0 0.

Definition initial : Globals := mkGlobals zeroSectionInfo zeroSectionInfo.

Definition addImageProtocolConformanceBlock (block : SectionInfo) : Run Globals unit :=
  g <- get ;;
  put (mkGlobals block (typeMetadata g)).

Definition addImageTypeMetadataRecordBlock (block : SectionInfo) : Run Globals unit :=
  g <- get ;;
  put (mkGlobals (protocolConformances g) block).

Definition initializeProtocolConformanceLookup : Run Globals unit :=
  g <- get ;;
  call (addImageProtocolConformanceBlockCallback
          (data (protocolConformances g)) (size (protocolConformances g))).

Definition initializeTypeMetadataRecordLookup : Run Globals unit :=
  g <- get ;;
  call (addImageTypeMetadataRecordBlockCallback
          (data (typeMetadata g)) (size (typeMetadata g))).

Definition exec (e : Entry) : Run Globals unit :=
  match e with
  | Add ProtocolConformance b => addImageProtocolConformanceBlock b
  | Add TypeMetadata b => addImageTypeMetadataRecordBlock b
  | Initialize ProtocolConformance => initializeProtocolConformanceLookup
  | Initialize TypeMetadata => initializeTypeMetadataRecordLookup
  end.

Definition run (es : list Entry) (g : Globals) := execAll exec es g.

Definition stored (r : Registry) (g : Globals) : SectionInfo :=
  match r with
  | ProtocolConformance => protocolConformances g
  | TypeMetadata => typeMetadata g
  end.

End ImageInspectionStatic.

Local Close Scope run_scope.

(* ===================================================================== *)
(** * StaticBinaryELF.cpp: the parser of the running static executable *)
(* ===================================================================== *)

Module StaticELF.

Local Open Scope Z_scope.

(** ** Results of code that can leave defined behaviour *)

(** [Fault] stands for an execution that left defined behaviour: a read
    outside the current mapping or past the end of the file, a division by
    zero, an overflowing [int] multiplication. *)
Inductive Result (A : Type) : Type :=
| Ok (a : A)
| Fault.
Arguments Ok {A} a.
Arguments Fault {A}.

Definition bind {A B} (m : Result A) (k : A -> Result B) : Result B :=
  match m with
  | Ok a => k a
  | Fault => Fault
  end.

Declare Scope elf_scope.
Delimit Scope elf_scope with elf.
Notation "x <- m ;; k" := (bind m (fun x => k))
  (at level 61, m at next level, right associativity) : elf_scope.
Notation "' pat <- m ;; k" := (bind m (fun x => match x with pat => k end))
  (at level 61, pat pattern, m at next level, right associativity) : elf_scope.
Local Open Scope elf_scope.

(** The short-circuit [a || b] and [a && b] of C over operands that read
    memory: the right operand is evaluated only when it decides. *)
Definition orElse (a b : Result bool) : Result bool :=
  x <- a ;; if x then Ok true else b.
Definition andAlso (a b : Result bool) : Result bool :=
  x <- a ;; if x then b else Ok false.
Infix "|||" := orElse (at level 50, left associativity) : elf_scope.
Infix "&&&" := andAlso (at level 40, left associativity) : elf_scope.

(** [for (idx = start; idx < start + n; idx++) body(idx)], where the body
    either returns [a] from the enclosing function ([Some a]) or goes on to
    the next iteration ([None]). *)
Fixpoint forLoop {A} (n : nat) (idx : Z) (body : Z -> Result (option A))
  : Result (option A) :=
  match n with
  | O => Ok None
  | S n' =>
      r <- body idx ;;
      match r with
      | Some a => Ok (Some a)
      | None => forLoop n' (idx + 1) body
      end
  end.

(** ** The ELF types of <elf.h>, for both values of [__LP64__] *)

(** A member of a struct: its byte offset and its width in bytes. *)
Record Field : Type := mkField { offset : Z; width : nat }.

Record ElfTypes : Type := mkElfTypes {
  wordBits : Z;            (* width of Elf_Addr, Elf_Off and size_t *)
  ELFCLASS : Z;
  sizeof_Ehdr : Z;
  e_type : Field; e_version : Field; e_phoff : Field; e_shoff : Field;
  e_ehsize : Field; e_phentsize : Field; e_phnum : Field;
  e_shentsize : Field; e_shnum : Field; e_shstrndx : Field;
  sizeof_Phdr : Z;
  p_type : Field; p_vaddr : Field; p_memsz : Field;
  sizeof_Shdr : Z;
  sh_type : Field; sh_offset : Field; sh_size : Field; sh_entsize : Field;
  sizeof_Sym : Z;
  st_name : Field; st_info : Field; st_value : Field; st_size : Field
}.

(** [#ifdef __LP64__]: the Elf64_* types. *)
Definition Elf64 : ElfTypes := {|
  wordBits := 64; ELFCLASS := 2; sizeof_Ehdr := 64;
  e_type := mkField 16 2; e_version := mkField 20 4;
  e_phoff := mkField 32 8; e_shoff := mkField 40 8;
  e_ehsize := mkField 52 2; e_phentsize := mkField 54 2; e_phnum := mkField 56 2;
  e_shentsize := mkField 58 2; e_shnum := mkField 60 2; e_shstrndx := mkField 62 2;
  sizeof_Phdr := 56;
  p_type := mkField 0 4; p_vaddr := mkField 16 8; p_memsz := mkField 40 8;
  sizeof_Shdr := 64;
  sh_type := mkField 4 4; sh_offset := mkField 24 8; sh_size := mkField 32 8;
  sh_entsize := mkField 56 8;
  sizeof_Sym := 24;
  st_name := mkField 0 4; st_info := mkField 4 1; st_value := mkField 8 8;
  st_size := mkField 16 8
|}.

(** [#else]: the Elf32_* types. *)
Definition Elf32 : ElfTypes := {|
  wordBits := 32; ELFCLASS := 1; sizeof_Ehdr := 52;
  e_type := mkField 16 2; e_version := mkField 20 4;
  e_phoff := mkField 28 4; e_shoff := mkField 32 4;
  e_ehsize := mkField 40 2; e_phentsize := mkField 42 2; e_phnum := mkField 44 2;
  e_shentsize := mkField 46 2; e_shnum := mkField 48 2; e_shstrndx := mkField 50 2;
  sizeof_Phdr := 32;
  p_type := mkField 0 4; p_vaddr := mkField 8 4; p_memsz := mkField 20 4;
  sizeof_Shdr := 40;
  sh_type := mkField 4 4; sh_offset := mkField 16 4; sh_size := mkField 20 4;
  sh_entsize := mkField 36 4;
  sizeof_Sym := 16;
  st_name := mkField 0 4; st_info := mkField 12 1; st_value := mkField 4 4;
  st_size := mkField 8 4
|}.

(** [e_ident[i]] *)
Definition e_ident (i : Z) : Field := mkField i 1.

Definition EI_MAG0 : Z := 0.
Definition EI_MAG1 : Z := 1.
Definition EI_MAG2 : Z := 2.
Definition EI_MAG3 : Z := 3.
Definition EI_CLASS : Z := 4.
Definition ELFMAG0 : Z := 127.  (* 0x7f *)
Definition ELFMAG1 : Z := 69.   (* 'E' *)
Definition ELFMAG2 : Z := 76.   (* 'L' *)
Definition ELFMAG3 : Z := 70.   (* 'F' *)
Definition ET_EXEC : Z := 2.
Definition EV_CURRENT : Z := 1.
Definition PT_LOAD : Z := 1.
Definition PT_INTERP : Z := 3.
Definition SHT_SYMTAB : Z := 2.
Definition SHT_STRTAB : Z := 3.
Definition STT_FUNC : Z := 2.
Definition ELF_ST_TYPE (x : Z) : Z := Z.land x 15.  (* (x) & 0xf *)
Definition INT_MAX : Z := 2147483647.

(** ** The operating system, as the parser sees it *)

Record OS : Type := mkOS {
  (* open(filename, O_RDONLY): the bytes of the file, None when it fails *)
  os_open : option (list byte);
  (* fstat(fd, &buf) == 0 *)
  os_fstat : bool;
  (* mmap(nullptr, sizeof(Elf_Ehdr), ...): the address, None for MAP_FAILED *)
  os_mmap : option Z;
  (* mremap(old, oldLength, newLength, MREMAP_MAYMOVE): the address of the
     resized mapping, which may differ from the old one; None for MAP_FAILED *)
  os_mremap : Z -> Z -> Z -> option Z
}.

(** The object's members ([fullPathName], which no property here reads, is
    left out).  Pointers are addresses, [0] is nullptr. *)
Record StaticBinaryELF : Type := mkStaticBinaryELF {
  mapLength : Z;
  fileSize : Z;
  mapping : Z;
  elfHeader : Z;
  symbolTable : Z;
  stringTable : Z
}.

Definition empty : StaticBinaryELF := mkStaticBinaryELF 0 0 0 0 0 0.

(** The value of an unsigned integer member from its bytes in memory.  The
    hosts this file is built for (x86-64, AArch64 and 32-bit ARM Linux) are
    little-endian. *)
Fixpoint le_decode (bs : list byte) : Z :=
  match bs with
  | [] => 0
  | b :: rest => Z.of_N (Byte.to_N b) + 256 * le_decode rest
  end.

(** ** Typed views of the file, used to state the properties *)

(** The members of each struct that the parser reads. *)
Record Ehdr : Type := mkEhdr {
  eh_mag0 : Z; eh_mag1 : Z; eh_mag2 : Z; eh_mag3 : Z; eh_class : Z;
  eh_type : Z; eh_version : Z; eh_ehsize : Z
}.
Record Phdr : Type := mkPhdr { ph_type : Z; ph_vaddr : Z; ph_memsz : Z }.
Record Shdr : Type := mkShdr {
  sec_type : Z; sec_offset : Z; sec_size : Z; sec_entsize : Z
}.
Record Sym : Type := mkSym { sym_info : Z; sym_value : Z; sym_size : Z }.

(** The [n] elements of an array from index [idx] on, each read whole. *)
Fixpoint readArray {A} (read : Z -> Result A) (n : nat) (idx : Z) : Result (list A) :=
  match n with
  | O => Ok []
  | S n' =>
      x <- read idx ;;
      xs <- readArray read n' (idx + 1) ;;
      Ok (x :: xs)
  end.

(** The first element of [xs] (whose first index is [idx]) that passes
    [test], with its index. *)
Fixpoint firstHit {A} (test : Z -> A -> bool) (idx : Z) (xs : list A) : option (Z * A) :=
  match xs with
  | [] => None
  | x :: rest => if test idx x then Some (idx, x) else firstHit test (idx + 1) rest
  end.

(** [PATH_MAX] of <linux/limits.h>. *)
Definition PATH_MAX : nat := 4096.

(** "/proc/self/exe" *)
Definition proc_self_exe : list byte :=
  [x2f; x70; x72; x6f; x63; x2f; x73; x65; x6c; x66; x2f; x65; x78; x65].

(** The object with its path name. *)
Record Binary : Type := mkBinary { fullPathName : list byte; elf : StaticBinaryELF }.

(** The statics of [_swift_dladdr]. *)
Record Statics : Type := mkStatics { binary : option Binary; onceToken : bool }.

(** [Dl_info]; [dli_fname] is given by the string it points to, the other
    members are addresses. *)
Record Dl_info : Type := mkDl_info {
  dli_fname : list byte; dli_fbase : Z; dli_sname : Z; dli_saddr : Z
}.

Section Parser.

Variable T : ElfTypes.
Variable os : OS.

Definition wrap (x : Z) : Z := x mod 2 ^ wordBits T.

Definition fileBytes : list byte :=
  match os_open os with Some bs => bs | None => [] end.

(** The object holds the process's only mapping of the file: the bytes
    [0 .. mapLength) of the file, at address [mapping]. *)
Definition mapped (s : StaticBinaryELF) (p n : Z) : bool :=
  negb (mapping s =? 0) && (mapping s <=? p) && (p + n <=? mapping s + mapLength s).

(** [p->f]: the member [f] of the struct at address [p].  The read is
    defined when the member lies in the mapping and in the file. *)
Definition load (s : StaticBinaryELF) (p : Z) (f : Field) : Result Z :=
  let a := p + offset f in
  if mapped s a (Z.of_nat (width f)) then
    let bs := firstn (width f) (skipn (Z.to_nat (a - mapping s)) fileBytes) in
    if (length bs =? width f)%nat then Ok (le_decode bs) else Fault
  else Fault.

(** [a * b] on two [uint16_t] members: the operands are promoted to [int]. *)
Definition int_mul (a b : Z) : Result Z :=
  if a * b <=? INT_MAX then Ok (a * b) else Fault.

Definition expandMapping (s : StaticBinaryELF) (size : Z) : StaticBinaryELF * bool :=
  if (mapping s =? 0) || (fileSize s <? size) then (s, false)
  else if mapLength s <? size then
    match os_mremap os (mapping s) (mapLength s) size with
    | None => (s, false)
    | Some map =>
        (mkStaticBinaryELF size (fileSize s) map map (symbolTable s) (stringTable s),
         true)
    end
  else (s, true).

(** Find the section of a specified type expanding the mapping as needed.
    Returns the object and the section header found (or nullptr).  The
    message printed to stderr is not modelled. *)
Definition findSection (s : StaticBinaryELF) (sectionType : Z)
  : Result (StaticBinaryELF * Z) :=
  shoff <- load s (elfHeader s) (e_shoff T) ;;
  let headers := mapping s + shoff in
  shnum <- load s (elfHeader s) (e_shnum T) ;;
  r <- forLoop (Z.to_nat shnum) 0 (fun idx =>
         shstrndx <- load s (elfHeader s) (e_shstrndx T) ;;
         if idx =? shstrndx then Ok None
         else
           let header := headers + idx * sizeof_Shdr T in
           ty <- load s header (sh_type T) ;;
           if ty =? sectionType then
             corrupt <- (entsize <- load s header (sh_entsize T) ;; Ok (0 <? entsize))
                        &&& (size <- load s header (sh_size T) ;;
                             entsize <- load s header (sh_entsize T) ;;
                             Ok (negb (size mod entsize =? 0))) ;;
             if corrupt then Ok (Some (s, 0))
             else
               off <- load s header (sh_offset T) ;;
               size <- load s header (sh_size T) ;;
               let (s', ok) := expandMapping s (wrap (off + size)) in
               if ok then Ok (Some (s', header)) else Ok (Some (s', 0))
           else Ok None) ;;
  match r with
  | Some found => Ok found
  | None => Ok (s, 0)
  end.

Definition withElfHeader (s : StaticBinaryELF) (p : Z) : StaticBinaryELF :=
  mkStaticBinaryELF (mapLength s) (fileSize s) (mapping s) p
    (symbolTable s) (stringTable s).

Definition withSymbolTable (s : StaticBinaryELF) (p : Z) : StaticBinaryELF :=
  mkStaticBinaryELF (mapLength s) (fileSize s) (mapping s) (elfHeader s)
    p (stringTable s).

Definition withStringTable (s : StaticBinaryELF) (p : Z) : StaticBinaryELF :=
  mkStaticBinaryELF (mapLength s) (fileSize s) (mapping s) (elfHeader s)
    (symbolTable s) p.

Definition differs (v : Result Z) (c : Z) : Result bool :=
  x <- v ;; Ok (negb (x =? c)).

(** The stages of [readElfHeader], in the order of the source. *)

(** "Validate the header magic number": the condition of the first [if]. *)
Definition magicDiffers (s : StaticBinaryELF) : Result bool :=
  differs (load s (elfHeader s) (e_ident EI_MAG0)) ELFMAG0
  ||| differs (load s (elfHeader s) (e_ident EI_MAG1)) ELFMAG1
  ||| differs (load s (elfHeader s) (e_ident EI_MAG2)) ELFMAG2
  ||| differs (load s (elfHeader s) (e_ident EI_MAG3)) ELFMAG3.

(** "Validate the binary is current ELF executable for the CPU bitsize":
    the condition of the second [if]. *)
Definition notCurrentExecutable (s : StaticBinaryELF) : Result bool :=
  differs (load s (elfHeader s) (e_ident EI_CLASS)) (ELFCLASS T)
  ||| differs (load s (elfHeader s) (e_type T)) ET_EXEC
  ||| differs (load s (elfHeader s) (e_version T)) EV_CURRENT
  ||| differs (load s (elfHeader s) (e_ehsize T)) (sizeof_Ehdr T).

(** "Map in the program header block" *)
Definition mapProgramHeaders (s : StaticBinaryELF) : Result (StaticBinaryELF * bool) :=
  phentsize <- load s (elfHeader s) (e_phentsize T) ;;
  phnum <- load s (elfHeader s) (e_phnum T) ;;
  programHeaderSize <- int_mul phentsize phnum ;;
  phoff <- load s (elfHeader s) (e_phoff T) ;;
  Ok (expandMapping s (wrap (phoff + programHeaderSize))).

(** "If a interpreter is set in the program headers then this is a dynamic
    executable and therefore not valid": whether the loop finds PT_INTERP. *)
Definition hasInterpreter (s : StaticBinaryELF) : Result bool :=
  phoff <- load s (elfHeader s) (e_phoff T) ;;
  let headers := mapping s + phoff in
  phnum <- load s (elfHeader s) (e_phnum T) ;;
  r <- forLoop (Z.to_nat phnum) 0 (fun idx =>
         ty <- load s (headers + idx * sizeof_Phdr T) (p_type T) ;;
         if ty =? PT_INTERP then Ok (Some tt) else Ok None) ;;
  match r with
  | Some _ => Ok true
  | None => Ok false
  end.

(** "Map in the section headers" *)
Definition mapSectionHeaders (s : StaticBinaryELF) : Result (StaticBinaryELF * bool) :=
  shentsize <- load s (elfHeader s) (e_shentsize T) ;;
  shnum <- load s (elfHeader s) (e_shnum T) ;;
  sectionHeaderSize <- int_mul shentsize shnum ;;
  shoff <- load s (elfHeader s) (e_shoff T) ;;
  Ok (expandMapping s (wrap (shoff + sectionHeaderSize))).

(** Read the ELF header and sections from the binary validating that is it
    a static binary of the correct bitsize. *)
Definition readElfHeader (s : StaticBinaryELF) : Result (StaticBinaryELF * bool) :=
  let s := withElfHeader s (mapping s) in
  bad <- magicDiffers s ;;
  if bad then Ok (s, false) else
  bad <- notCurrentExecutable s ;;
  if bad then Ok (s, false) else
  '(s, ok) <- mapProgramHeaders s ;;
  if negb ok then Ok (s, false) else
  interp <- hasInterpreter s ;;
  if interp then Ok (s, false) else
  '(s, ok) <- mapSectionHeaders s ;;
  if negb ok then Ok (s, false) else
  '(s, symtab) <- findSection s SHT_SYMTAB ;;
  let s := withSymbolTable s symtab in
  '(s, strtab) <- findSection s SHT_STRTAB ;;
  let s := withStringTable s strtab in
  Ok (s, true).

(** Parse the ELF binary using mmap to read it but keep the mapped region
    as small as possible and expand it as necessary. *)
Definition mmapExecutable (s : StaticBinaryELF) : Result (StaticBinaryELF * bool) :=
  match os_open os with
  | None => Ok (s, false)
  | Some bytes =>
      if negb (os_fstat os) then Ok (s, false)
      else
        match os_mmap os with
        | None => Ok (s, false)
        | Some map =>
            (* fileSize = buf.st_size, converted to size_t *)
            let s := mkStaticBinaryELF (sizeof_Ehdr T) (wrap (Z.of_nat (length bytes)))
                       map (elfHeader s) (symbolTable s) (stringTable s) in
            '(s, ok) <- readElfHeader s ;;
            if negb ok then
              (* munmap(map, mapLength) *)
              Ok (mkStaticBinaryELF 0 (fileSize s) 0 0 0 0, false)
            else Ok (s, true)
        end
  end.

(** The constructor: [executablePathName(filename); mmapExecutable(filename);]
    on the members' default values; the result of mmapExecutable is dropped. *)
Definition construct : Result StaticBinaryELF :=
  '(s, _) <- mmapExecutable empty ;; Ok s.

Definition getSectionLoadAddress (s : StaticBinaryELF) (addr : Z) : Result Z :=
  if negb (elfHeader s =? 0) then
    let searchAddr := addr in
    phoff <- load s (elfHeader s) (e_phoff T) ;;
    let headers := mapping s + phoff in
    phnum <- load s (elfHeader s) (e_phnum T) ;;
    r <- forLoop (Z.to_nat phnum) 0 (fun idx =>
           let header := headers + idx * sizeof_Phdr T in
           hit <- (ty <- load s header (p_type T) ;; Ok (ty =? PT_LOAD))
                  &&& (vaddr <- load s header (p_vaddr T) ;; Ok (vaddr <=? searchAddr))
                  &&& (vaddr <- load s header (p_vaddr T) ;;
                       memsz <- load s header (p_memsz T) ;;
                       Ok (searchAddr <=? wrap (vaddr + memsz))) ;;
           if hit then (vaddr <- load s header (p_vaddr T) ;; Ok (Some vaddr))
           else Ok None) ;;
    match r with
    | Some p => Ok p
    | None => Ok 0
    end
  else Ok 0.

(** Lookup a function symbol by address. *)
Definition findSymbol (s : StaticBinaryELF) (addr : Z) : Result Z :=
  if negb (symbolTable s =? 0) then
    let searchAddr := addr in
    size <- load s (symbolTable s) (sh_size T) ;;
    entsize <- load s (symbolTable s) (sh_entsize T) ;;
    if entsize =? 0 then Fault
    else
      let entries := size / entsize in
      off <- load s (symbolTable s) (sh_offset T) ;;
      let symbols := mapping s + off in
      r <- forLoop (Z.to_nat entries) 0 (fun idx =>
             let symbol := symbols + idx * sizeof_Sym T in
             hit <- (info <- load s symbol (st_info T) ;;
                     Ok (ELF_ST_TYPE info =? STT_FUNC))
                    &&& (value <- load s symbol (st_value T) ;; Ok (value <=? searchAddr))
                    &&& (value <- load s symbol (st_value T) ;;
                         sz <- load s symbol (st_size T) ;;
                         Ok (searchAddr <? wrap (value + sz))) ;;
             if hit then Ok (Some symbol) else Ok None) ;;
      match r with
      | Some symbol => Ok symbol
      | None => Ok 0
      end
  else Ok 0.

(** [symbolName]: the address of the name of a symbol in the string table,
    or nullptr. *)
Definition symbolName (s : StaticBinaryELF) (symbol : Z) : Result Z :=
  none <- Ok (stringTable s =? 0)
          ||| (name <- load s symbol (st_name T) ;;
               size <- load s (stringTable s) (sh_size T) ;;
               Ok (size <=? name)) ;;
  if none then Ok 0
  else
    off <- load s (stringTable s) (sh_offset T) ;;
    name <- load s symbol (st_name T) ;;
    Ok (mapping s + off + name).

(** *** The path of the executable *)

(** [readlink(filename, buf, bufsiz)] on a link whose target is [link]
    ([None] when the call fails): the bytes placed in the buffer, at most
    [bufsiz] of them; the call returns their number. *)
Definition readlink (link : option (list byte)) (bufsiz : nat) : option (list byte) :=
  option_map (firstn bufsiz) link.

(** The string a [const char *] denotes: the bytes before the first NUL. *)
Fixpoint c_str (bs : list byte) : list byte :=
  match bs with
  | [] => []
  | b :: rest => if Byte.eqb b x00 then [] else b :: c_str rest
  end.

(** [v[idx] = c] on a vector: undefined outside of it. *)
Definition store (v : list byte) (idx : nat) (c : byte) : Result (list byte) :=
  if (idx <? length v)%nat then Ok (firstn idx v ++ c :: skipn (S idx) v) else Fault.

(** If the binary is a symlink (eg /proc/self/exe) resolve to the canonical
    filename: the new value of [fullPathName]. *)
Definition executablePathName (link : option (list byte)) (filename : list byte)
  : Result (list byte) :=
  let fname := repeat x00 PATH_MAX in          (* vector<char> fname(PATH_MAX) *)
  match readlink link (PATH_MAX - 1) with
  | None => Ok (c_str filename)               (* ret == -1 *)
  | Some written =>
      let ret := length written in
      let fname := written ++ skipn ret fname in
      let ret := if (PATH_MAX <=? ret)%nat then PATH_MAX else ret in
      fname <- store fname ret x00 ;;
      Ok (c_str fname)
  end.

(** *** _swift_dladdr *)

(** The whole object: [fullPathName] beside the members of
    [StaticBinaryELF]. *)
Definition newStaticBinaryELF (link : option (list byte)) (filename : list byte)
  : Result Binary :=
  path <- executablePathName link filename ;;
  '(s, _) <- mmapExecutable empty ;;
  Ok (mkBinary path s).

(** [_swift_dladdr(addr, info)] on the function's statics: the statics
    after the call, the value returned and the [Dl_info] filled in. *)
Definition _swift_dladdr (link : option (list byte)) (st : Statics) (addr : Z)
  : Result (Statics * Z * Dl_info) :=
  (* pthread_once(&onceToken, ...) *)
  st <- (if onceToken st then Ok st
         else b <- newStaticBinaryELF link proc_self_exe ;;
              Ok (mkStatics (Some b) true)) ;;
  match binary st with
  | None => Fault                              (* binary->getPathName() on nullptr *)
  | Some b =>
      let fname := fullPathName b in
      fbase <- getSectionLoadAddress (elf b) addr ;;
      symbol <- findSymbol (elf b) addr ;;
      if negb (symbol =? 0) then
        saddr <- load (elf b) symbol (st_value T) ;;
        sname <- symbolName (elf b) symbol ;;
        Ok (st, 1, mkDl_info fname fbase sname saddr)
      else Ok (st, 1, mkDl_info fname fbase 0 0)
  end.

(** *** Views *)

Definition ehdrAt (s : StaticBinaryELF) (p : Z) : Result Ehdr :=
  m0 <- load s p (e_ident EI_MAG0) ;;
  m1 <- load s p (e_ident EI_MAG1) ;;
  m2 <- load s p (e_ident EI_MAG2) ;;
  m3 <- load s p (e_ident EI_MAG3) ;;
  cl <- load s p (e_ident EI_CLASS) ;;
  ty <- load s p (e_type T) ;;
  ve <- load s p (e_version T) ;;
  sz <- load s p (e_ehsize T) ;;
  Ok (mkEhdr m0 m1 m2 m3 cl ty ve sz).

Definition phdrAt (s : StaticBinaryELF) (p : Z) : Result Phdr :=
  ty <- load s p (p_type T) ;;
  va <- load s p (p_vaddr T) ;;
  ms <- load s p (p_memsz T) ;;
  Ok (mkPhdr ty va ms).

Definition shdrAt (s : StaticBinaryELF) (p : Z) : Result Shdr :=
  ty <- load s p (sh_type T) ;;
  off <- load s p (sh_offset T) ;;
  sz <- load s p (sh_size T) ;;
  es <- load s p (sh_entsize T) ;;
  Ok (mkShdr ty off sz es).

Definition symAt (s : StaticBinaryELF) (p : Z) : Result Sym :=
  info <- load s p (st_info T) ;;
  value <- load s p (st_value T) ;;
  sz <- load s p (st_size T) ;;
  Ok (mkSym info value sz).

(** The program header table: [e_phnum] entries at [mapping + e_phoff]. *)
Definition programHeaders (s : StaticBinaryELF) : Result (list Phdr) :=
  phoff <- load s (elfHeader s) (e_phoff T) ;;
  phnum <- load s (elfHeader s) (e_phnum T) ;;
  readArray (fun idx => phdrAt s (mapping s + phoff + idx * sizeof_Phdr T))
    (Z.to_nat phnum) 0.

(** The section header table: its address [mapping + e_shoff], the index
    [e_shstrndx] and its [e_shnum] entries. *)
Definition sectionHeaders (s : StaticBinaryELF) : Result (Z * Z * list Shdr) :=
  shoff <- load s (elfHeader s) (e_shoff T) ;;
  shnum <- load s (elfHeader s) (e_shnum T) ;;
  shstrndx <- load s (elfHeader s) (e_shstrndx T) ;;
  hs <- readArray (fun idx => shdrAt s (mapping s + shoff + idx * sizeof_Shdr T))
          (Z.to_nat shnum) 0 ;;
  Ok (mapping s + shoff, shstrndx, hs).

(** The symbol table that [symbolTable] describes: its address
    [mapping + sh_offset] and its [sh_size / sh_entsize] entries. *)
Definition symbols (s : StaticBinaryELF) : Result (Z * list Sym) :=
  size <- load s (symbolTable s) (sh_size T) ;;
  entsize <- load s (symbolTable s) (sh_entsize T) ;;
  if entsize =? 0 then Fault
  else
    off <- load s (symbolTable s) (sh_offset T) ;;
    ys <- readArray (fun idx => symAt s (mapping s + off + idx * sizeof_Sym T))
            (Z.to_nat (size / entsize)) 0 ;;
    Ok (mapping s + off, ys).

(** *** The conditions of the specification *)

(** The header fails one of the validations of [readElfHeader]. *)
Definition rejected (h : Ehdr) : Prop :=
  eh_mag0 h <> ELFMAG0 \/ eh_mag1 h <> ELFMAG1 \/ eh_mag2 h <> ELFMAG2
  \/ eh_mag3 h <> ELFMAG3 \/ eh_class h <> ELFCLASS T \/ eh_type h <> ET_EXEC
  \/ eh_version h <> EV_CURRENT \/ eh_ehsize h <> sizeof_Ehdr T.

(** [addr] lies in the closed range [p_vaddr, p_vaddr + p_memsz] of a
    PT_LOAD header; the sum is the Elf_Addr sum of the code. *)
Definition segmentContains (addr : Z) (h : Phdr) : bool :=
  (ph_type h =? PT_LOAD) && (ph_vaddr h <=? addr)
  && (addr <=? wrap (ph_vaddr h + ph_memsz h)).

(** [addr] lies in the half-open range [st_value, st_value + st_size) of a
    function symbol; the sum is the Elf_Addr sum of the code. *)
Definition symbolContains (addr : Z) (y : Sym) : bool :=
  (ELF_ST_TYPE (sym_info y) =? STT_FUNC) && (sym_value y <=? addr)
  && (addr <? wrap (sym_value y + sym_size y)).

(** A section whose size is not a multiple of its nonzero entry size. *)
Definition corrupt (h : Shdr) : bool :=
  (0 <? sec_entsize h) && negb (sec_size h mod sec_entsize h =? 0).

(** What findSection does with the section it stops at: the object and
    the section header it returns. *)
Definition selected (s : StaticBinaryELF) (headers idx : Z) (h : Shdr)
  : StaticBinaryELF * Z :=
  if corrupt h then (s, 0)
  else
    let (s', ok) := expandMapping s (wrap (sec_offset h + sec_size h)) in
    if ok then (s', headers + idx * sizeof_Shdr T) else (s', 0).

(** Section [idx] is one [findSection] looks at for [sectionType]. *)
Definition candidate (shstrndx sectionType : Z) (idx : Z) (h : Shdr) : bool :=
  negb (idx =? shstrndx) && (sec_type h =? sectionType).

End Parser.

(** ** Small ELF64 images, for running the parser *)

Definition byteOf (z : Z) : byte :=
  match Byte.of_N (Z.to_N (z mod 256)) with
  | Some b => b
  | None => x00
  end.

Fixpoint le_encode (n : nat) (v : Z) : list byte :=
  match n with
  | O => []
  | S n' => byteOf v :: le_encode n' (v / 256)
  end.

(** An Elf64_Ehdr of an x86-64 executable. *)
Definition ehdr64 (phoff shoff phentsize phnum shentsize shnum shstrndx : Z)
  : list byte :=
  map byteOf [ELFMAG0; ELFMAG1; ELFMAG2; ELFMAG3; 2; 1; 1; 0; 0; 0; 0; 0; 0; 0; 0; 0]
  ++ le_encode 2 ET_EXEC ++ le_encode 2 62 ++ le_encode 4 EV_CURRENT
  ++ le_encode 8 4096 ++ le_encode 8 phoff ++ le_encode 8 shoff
  ++ le_encode 4 0 ++ le_encode 2 64 ++ le_encode 2 phentsize ++ le_encode 2 phnum
  ++ le_encode 2 shentsize ++ le_encode 2 shnum ++ le_encode 2 shstrndx.

Definition phdr64 (type vaddr memsz : Z) : list byte :=
  le_encode 4 type ++ le_encode 4 5 ++ le_encode 8 0 ++ le_encode 8 vaddr
  ++ le_encode 8 vaddr ++ le_encode 8 memsz ++ le_encode 8 memsz ++ le_encode 8 4096.

Definition shdr64 (type off size entsize : Z) : list byte :=
  le_encode 4 0 ++ le_encode 4 type ++ le_encode 8 0 ++ le_encode 8 0
  ++ le_encode 8 off ++ le_encode 8 size ++ le_encode 4 0 ++ le_encode 4 0
  ++ le_encode 8 1 ++ le_encode 8 entsize.

Definition sym64 (name info value size : Z) : list byte :=
  le_encode 4 name ++ le_encode 1 info ++ le_encode 1 0 ++ le_encode 2 1
  ++ le_encode 8 value ++ le_encode 8 size.

(** A static executable with one load segment [0x400000, 0x402000], the
    function symbol f at [0x401000, 0x401020) and its section headers at the
    end of the file:  0 Ehdr | 64 Phdr | 120 .symtab | 168 .strtab | 176 Shdr[3]. *)
Definition staticImage : list byte :=
  ehdr64 64 176 56 1 64 3 0
  ++ phdr64 PT_LOAD 4194304 8192
  ++ sym64 0 0 0 0 ++ sym64 1 18 4198400 32
  ++ map byteOf [0; 102; 0; 0; 0; 0; 0; 0]
  ++ shdr64 0 0 0 0 ++ shdr64 SHT_SYMTAB 120 48 24 ++ shdr64 SHT_STRTAB 168 3 0.

(** The same executable with a PT_INTERP program header after the load
    segment:  0 Ehdr | 64 Phdr[2] | 176 Shdr[1]. *)
Definition dynamicImage : list byte :=
  ehdr64 64 176 56 2 64 1 0
  ++ phdr64 PT_LOAD 4194304 8192 ++ phdr64 PT_INTERP 4194816 28
  ++ shdr64 0 0 0 0.

(** An executable whose section contents follow the section headers:
    0 Ehdr | 64 Shdr[3] | 256 .symtab | 280 .strtab. *)
Definition headersFirstImage : list byte :=
  ehdr64 64 64 56 0 64 3 0
  ++ shdr64 0 0 0 0 ++ shdr64 SHT_SYMTAB 256 24 24 ++ shdr64 SHT_STRTAB 280 8 0
  ++ sym64 1 18 4198400 32
  ++ map byteOf [0; 102; 0; 0; 0; 0; 0; 0].


(** The executable [staticImage] with a symbol table section whose
    sh_entsize is 0. *)
Definition zeroEntsizeImage : list byte :=
  ehdr64 64 176 56 1 64 3 0
  ++ phdr64 PT_LOAD 4194304 8192
  ++ sym64 0 0 0 0 ++ sym64 1 18 4198400 32
  ++ map byteOf [0; 102; 0; 0; 0; 0; 0; 0]
  ++ shdr64 0 0 0 0 ++ shdr64 SHT_SYMTAB 120 48 0 ++ shdr64 SHT_STRTAB 168 3 0.

(** The first 100 bytes of [staticImage]: the file ends inside the program
    header table. *)
Definition truncatedImage : list byte := firstn 100 staticImage.

(** An operating system on which the executable cannot be opened. *)
Definition cannotOpen : OS := mkOS None false None (fun _ _ _ => None).

(** An operating system on which opening and mapping the file succeed, the
    first mapping is at 0x10000 and mremap grows the mapping in place. *)
Definition growInPlace (image : list byte) : OS :=
  mkOS (Some image) true (Some 65536) (fun old _ _ => Some old).

(** The same, with an mremap that moves the mapping 0x10000 up each time. *)
Definition growMoving (image : list byte) : OS :=
  mkOS (Some image) true (Some 65536) (fun old _ _ => Some (old + 65536)).

End StaticELF.

(* ===================================================================== *)
(** * ImageInspectionInit.cpp: the constructor of each image *)
(* ===================================================================== *)

Module ImageInspectionInit.

(** A [Section] symbol of swift_sections.S: its address and the bytes the
    memory holds from that address on (a 64-bit size, then the records). *)
Record Section : Type := mkSection { address : N; memory : list byte }.

(** The two symbols of an image. *)
Record Image : Type := mkImage {
  protocolConformancesStart : Section;
  typeMetadataStart : Section
}.

(** [getSectionInfo]: [None] when the memcpy of the size reads past the
    memory of the section. *)
Definition getSectionInfo (section : Section) : option SectionInfo :=
  let bs := firstn 8 (memory section) in
  if (length bs =? 8)%nat
  then Some (mkSectionInfo (address section + 8) (Z.to_N (StaticELF.le_decode bs)))
  else None.

Definition undefined {G A} : Run G A := fun _ => ([], None).

(** [loadSectionData], over the entry points of the registry file the
    image is linked with. *)
Definition loadSectionData {G} (exec : Entry -> Run G unit) (image : Image)
  : Run G unit :=
  match getSectionInfo (protocolConformancesStart image) with
  | None => undefined
  | Some conformances =>
      bind (exec (Add ProtocolConformance conformances)) (fun _ =>
      match getSectionInfo (typeMetadataStart image) with
      | None => undefined
      | Some records => exec (Add TypeMetadata records)
      end)
  end.

(** The constructors of the images of a process, in load order. *)
Fixpoint loadAll {G} (exec : Entry -> Run G unit) (images : list Image) : Run G unit :=
  match images with
  | [] => ret tt
  | image :: rest => bind (loadSectionData exec image) (fun _ => loadAll exec rest)
  end.

(** The section of a registry in an image. *)
Definition sectionOf (r : Registry) (image : Image) : Section :=
  match r with
  | ProtocolConformance => protocolConformancesStart image
  | TypeMetadata => typeMetadataStart image
  end.

(** A section as swift_sections.S lays it out: the size of the records in
    eight bytes, then the records. *)
Definition layout (addr : N) (records : list byte) : Section :=
  mkSection addr (StaticELF.le_encode 8 (Z.of_nat (length records)) ++ records).

(** The block [getSectionInfo] makes of the section of [r] in an image
    (the zero block when the section cannot be read). *)
Definition infoOf (r : Registry) (image : Image) : SectionInfo :=
  match getSectionInfo (sectionOf r image) with
  | Some b => b
  | None => mkSectionInfo 0 0
  end.

(** The contributions the constructors of [images] make when every
    section can be read. *)
Definition contributions (images : list Image) : list (Registry * SectionInfo) :=
  flat_map (fun image => [(ProtocolConformance, infoOf ProtocolConformance image);
                          (TypeMetadata, infoOf TypeMetadata image)]) images.

(** Both sections of the image hold the eight bytes of their size. *)
Definition readable (image : Image) : Prop :=
  getSectionInfo (protocolConformancesStart image) <> None
  /\ getSectionInfo (typeMetadataStart image) <> None.

(** The start of a process: the constructors of its images in load order,
    then the runtime's activation of registry [r]. *)
Definition startup {G} (exec : Entry -> Run G unit) (images : list Image)
    (r : Registry) : Run G unit :=
  bind (loadAll exec images) (fun _ => exec (Initialize r)).

End ImageInspectionInit.

(* ===================================================================== *)
(** * The life cycle of a dynamic-ELF registry *)
(* ===================================================================== *)

(** What the statics of one registry say about it: never used, buffering
    the blocks [v], or activated (buffer deleted, pointer null). *)
Inductive Phase : Type :=
| Untouched
| Buffering (v : list SectionInfo)
| Activated.

Definition phaseOf (r : Registry) (g : ImageInspectionELF.Globals) : option Phase :=
  match ImageInspectionELF.onceOf r g, ImageInspectionELF.lockOf r g,
        ImageInspectionELF.bufferOf r g with
  | false, None, None => Some Untouched
  | true, Some _, Some v => Some (Buffering v)
  | true, Some _, None => Some Activated
  | _, _, _ => None
  end.

(** The phase after a contribution, and the callbacks the contribution makes. *)
Definition kept (b : SectionInfo) : list SectionInfo :=
  if nonEmpty b then [b] else [].

Definition afterAdd (b : SectionInfo) (p : Phase) : Phase :=
  match p with
  | Untouched => Buffering (kept b)
  | Buffering v => Buffering (v ++ kept b)
  | Activated => Activated
  end.

Definition forwarded (r : Registry) (b : SectionInfo) (p : Phase) : list Callback :=
  match p with
  | Activated => map (callbackOf r) (kept b)
  | _ => []
  end.

(** Every statics a run can reach: both registries are in a phase. *)
Definition consistent (g : ImageInspectionELF.Globals) : Prop :=
  forall r, phaseOf r g <> None.

(** The blocks a registry holds back for its activation. *)
Definition pending (r : Registry) (g : ImageInspectionELF.Globals) : list SectionInfo :=
  match phaseOf r g with
  | Some (Buffering v) => v
  | _ => []
  end.

(** No registry is activated yet. *)
Definition inactive (g : ImageInspectionELF.Globals) : Prop :=
  forall r, phaseOf r g = Some Untouched \/ exists v, phaseOf r g = Some (Buffering v).

(** Every buffered block has a size above zero. *)
Definition buffersNonEmpty (g : ImageInspectionELF.Globals) : Prop :=
  forall r v, phaseOf r g = Some (Buffering v) -> Forall (fun b => nonEmpty b = true) v.


(** The parser is disabled: nothing is mapped and every pointer is null. *)
Definition disabled (s : StaticELF.StaticBinaryELF) : Prop :=
  StaticELF.mapLength s = 0%Z /\ StaticELF.mapping s = 0%Z
  /\ StaticELF.elfHeader s = 0%Z /\ StaticELF.symbolTable s = 0%Z
  /\ StaticELF.stringTable s = 0%Z.

(** The parser is enabled: the file is mapped, [elfHeader] is the start of
    the mapping, and the mapping holds the ELF header and ends within the
    file (or within the header, for a file shorter than it). *)
Definition enabled (T : StaticELF.ElfTypes) (s : StaticELF.StaticBinaryELF) : Prop :=
  StaticELF.mapping s <> 0%Z
  /\ StaticELF.elfHeader s = StaticELF.mapping s
  /\ (StaticELF.sizeof_Ehdr T <= StaticELF.mapLength s
      <= Z.max (StaticELF.sizeof_Ehdr T) (StaticELF.fileSize s))%Z.

(** mremap never returns a null address for a mapping that is not null. *)
Definition mremapNotNull (os : StaticELF.OS) : Prop :=
  forall old oldLength newLength map,
    old <> 0%Z -> StaticELF.os_mremap os old oldLength newLength = Some map ->
    map <> 0%Z.

(** ** Runs of the registries, seen from outside *)

(** The blocks the entries [es] contribute to registry [r], in order. *)
Fixpoint addedTo (r : Registry) (es : list Entry) : list SectionInfo :=
  match es with
  | [] => []
  | Add r' b :: rest => if Registry_eqb r' r then b :: addedTo r rest else addedTo r rest
  | Initialize _ :: rest => addedTo r rest
  end.

(** The blocks the drain callback of [r] received in a trace, in order. *)
Fixpoint delivered (r : Registry) (t : list Callback) : list SectionInfo :=
  match t with
  | [] => []
  | addImageProtocolConformanceBlockCallback d n :: rest =>
      match r with
      | ProtocolConformance => mkSectionInfo d n :: delivered r rest
      | TypeMetadata => delivered r rest
      end
  | addImageTypeMetadataRecordBlockCallback d n :: rest =>
      match r with
      | ProtocolConformance => delivered r rest
      | TypeMetadata => mkSectionInfo d n :: delivered r rest
      end
  end.

(** [es] activates registry [r]. *)
Fixpoint activates (r : Registry) (es : list Entry) : bool :=
  match es with
  | [] => false
  | Initialize r' :: rest => Registry_eqb r' r || activates r rest
  | Add _ _ :: rest => activates r rest
  end.

(** The number of activations in [es]. *)
Fixpoint activations (es : list Entry) : nat :=
  match es with
  | [] => O
  | Initialize _ :: rest => S (activations rest)
  | Add _ _ :: rest => activations rest
  end.

(** Every activation in [es] comes after a contribution to the same
    registry, given the registries that received one before [es]
    ([conformance], [metadata]). *)
Fixpoint contributesFirst (conformance metadata : bool) (es : list Entry) : bool :=
  match es with
  | [] => true
  | Add ProtocolConformance _ :: rest => contributesFirst true metadata rest
  | Add TypeMetadata _ :: rest => contributesFirst conformance true rest
  | Initialize ProtocolConformance :: rest =>
      conformance && contributesFirst conformance metadata rest
  | Initialize TypeMetadata :: rest =>
      metadata && contributesFirst conformance metadata rest
  end.

(** The run went through all its entries. *)
Definition completed {G A} (o : list Callback * option (A * G)) : bool :=
  match snd o with Some _ => true | None => false end.

(* ===================================================================== *)
(** * Properties of the registries *)
(* ===================================================================== *)

Section RunFacts.
Context {G : Type} (exec : Entry -> Run G unit).

Lemma execAll_app (es1 es2 : list Entry) (g : G) :
  execAll exec (es1 ++ es2) g =
  match execAll exec es1 g with
  | (t, None) => (t, None)
  | (t, Some (_, g')) =>
      (t ++ trace (execAll exec es2 g'), snd (execAll exec es2 g'))
  end.
Proof.
  revert g. induction es1 as [|e es1 IH]; intros g; simpl.
  - unfold ret. simpl. destruct (execAll exec es2 g); reflexivity.
  - unfold bind.
    destruct (exec e g) as [t [[[] g1]|]]; [|reflexivity].
    rewrite IH. destruct (execAll exec es1 g1) as [t1 [[[] g2]|]].
    + unfold trace. destruct (execAll exec es2 g2) as [t2 r2]. simpl.
      now rewrite app_assoc.
    + reflexivity.
Qed.

Lemma execAll_cons (e : Entry) (es : list Entry) (g : G) :
  execAll exec (e :: es) g =
  match exec e g with
  | (t, None) => (t, None)
  | (t, Some (_, g')) =>
      (t ++ trace (execAll exec es g'), snd (execAll exec es g'))
  end.
Proof.
  simpl. unfold bind. destruct (exec e g) as [t [[[] g1]|]]; [|reflexivity].
  unfold trace. now destruct (execAll exec es g1).
Qed.

Lemma execAll_one (e : Entry) (g : G) : execAll exec [e] g = exec e g.
Proof.
  simpl. unfold bind, ret. destruct (exec e g) as [t [[[] g1]|]]; simpl;
    rewrite ?app_nil_r; reflexivity.
Qed.

End RunFacts.

Lemma forEach_calls {G} (r : Registry) (v : list SectionInfo) (g : G) :
  forEach v (fun block => call (callbackOf r block)) g
  = (map (callbackOf r) v, Some (tt, g)).
Proof.
  induction v as [|b v IH]; simpl; [reflexivity|].
  unfold bind, call in *. cbn. now rewrite IH.
Qed.

Lemma exec_Add_phase (r : Registry) (b : SectionInfo) (g : ImageInspectionELF.Globals)
    (p : Phase) :
  phaseOf r g = Some p ->
  exists g',
    ImageInspectionELF.exec (Add r b) g = (forwarded r b p, Some (tt, g'))
    /\ phaseOf r g' = Some (afterAdd b p)
    /\ (forall r', r' <> r -> phaseOf r' g' = phaseOf r' g)
    /\ (p = Activated -> g' = g).
Proof.
  intros Hp.
  destruct r; unfold ImageInspectionELF.exec,
    ImageInspectionELF.addImageProtocolConformanceBlock,
    ImageInspectionELF.addImageTypeMetadataRecordBlock, forwarded, afterAdd, kept,
    nonEmpty, phaseOf in *; destruct g as [l1 b1 l2 b2 o1 o2]; simpl in *;
  destruct (0 <? size b)%N eqn:Hb;
  destruct o1, o2, l1 as [[]|], l2 as [[]|], b1, b2; simpl in *;
  try discriminate; inversion Hp; subst; clear Hp;
  unfold bind, get, put, ret, call, assertion; simpl; rewrite ?app_nil_r;
  eexists; (split; [reflexivity|]); simpl;
  (split; [reflexivity|]);
  (split; [intros [] Hne; try congruence; reflexivity | intros; congruence]).
Qed.

Lemma exec_Initialize_phase (r : Registry) (g : ImageInspectionELF.Globals)
    (p : Phase) :
  phaseOf r g = Some p ->
  match p with
  | Untouched => ImageInspectionELF.exec (Initialize r) g = ([], None)
  | Buffering v =>
      exists g',
        ImageInspectionELF.exec (Initialize r) g
        = (map (callbackOf r) v, Some (tt, g'))
        /\ phaseOf r g' = Some Activated
        /\ (forall r', r' <> r -> phaseOf r' g' = phaseOf r' g)
  | Activated => ImageInspectionELF.exec (Initialize r) g = ([], Some (tt, g))
  end.
Proof.
  intros Hp.
  destruct r; unfold ImageInspectionELF.exec,
    ImageInspectionELF.initializeProtocolConformanceLookup,
    ImageInspectionELF.initializeTypeMetadataRecordLookup, phaseOf in *;
  destruct g as [l1 b1 l2 b2 o1 o2]; simpl in *;
  destruct o1, o2, l1 as [[]|], l2 as [[]|], b1, b2; simpl in *;
  try discriminate; inversion Hp; subst; clear Hp;
  unfold bind, get, put, ret, assertion; simpl; try reflexivity;
  try (rewrite (forEach_calls ProtocolConformance));
  try (rewrite (forEach_calls TypeMetadata));
  rewrite ?app_nil_r;
  eexists; (split; [reflexivity|]); simpl;
  (split; [reflexivity|]); intros [] Hne; try congruence; reflexivity.
Qed.

Lemma callbackSize_callbackOf (r : Registry) (b : SectionInfo) :
  callbackSize (callbackOf r b) = size b.
Proof. now destruct r. Qed.

Lemma nonEmpty_size (b : SectionInfo) : nonEmpty b = true <-> size b <> 0%N.
Proof. unfold nonEmpty. rewrite N.ltb_lt. lia. Qed.

Lemma kept_filter (b : SectionInfo) : kept b = filter nonEmpty [b].
Proof. unfold kept. simpl. now destruct (nonEmpty b). Qed.

Lemma kept_nonEmpty (b : SectionInfo) : Forall (fun x => nonEmpty x = true) (kept b).
Proof. unfold kept. destruct (nonEmpty b) eqn:E; auto. Qed.

Lemma initial_consistent : consistent ImageInspectionELF.initial.
Proof. intros []; discriminate. Qed.

Lemma Registry_eqb_eq (a b : Registry) : Registry_eqb a b = true <-> a = b.
Proof. destruct a, b; simpl; split; congruence. Qed.

Lemma Registry_eq_dec (a b : Registry) : {a = b} + {a <> b}.
Proof. decide equality. Defined.

(** One entry point run on consistent statics either stops at the assertion
    or ends in consistent statics; an activated registry stays activated,
    and a completed [Initialize r] leaves [r] activated. *)
Lemma exec_step (e : Entry) (g g' : ImageInspectionELF.Globals) :
  consistent g ->
  final (ImageInspectionELF.exec e g) = Some g' ->
  consistent g'
  /\ (forall r, phaseOf r g = Some Activated -> phaseOf r g' = Some Activated)
  /\ (forall r, e = Initialize r -> phaseOf r g' = Some Activated).
Proof.
  intros Hc Hf. destruct e as [r b | r].
  - destruct (phaseOf r g) as [p|] eqn:Hp; [|now destruct (Hc r)].
    destruct (exec_Add_phase r b g p Hp) as (g1 & He & Hp1 & Hother & _).
    rewrite He in Hf. inversion Hf; subst g1; clear Hf.
    split; [|split].
    + intros r'. destruct (Registry_eq_dec r' r) as [->|Hne].
      * rewrite Hp1. discriminate.
      * rewrite (Hother r' Hne). apply Hc.
    + intros r' Ha. destruct (Registry_eq_dec r' r) as [->|Hne].
      * rewrite Hp1. rewrite Hp in Ha. inversion Ha. reflexivity.
      * now rewrite (Hother r' Hne).
    + discriminate.
  - destruct (phaseOf r g) as [p|] eqn:Hp; [|now destruct (Hc r)].
    pose proof (exec_Initialize_phase r g p Hp) as H.
    destruct p as [|v|].
    + rewrite H in Hf. discriminate.
    + destruct H as (g1 & He & Hp1 & Hother).
      rewrite He in Hf. inversion Hf; subst g1; clear Hf.
      split; [|split].
      * intros r'. destruct (Registry_eq_dec r' r) as [->|Hne].
        -- rewrite Hp1. discriminate.
        -- rewrite (Hother r' Hne). apply Hc.
      * intros r' Ha. destruct (Registry_eq_dec r' r) as [->|Hne].
        -- assumption.
        -- now rewrite (Hother r' Hne).
      * intros r' E. inversion E; subst. assumption.
    + rewrite H in Hf. inversion Hf; subst g'; clear Hf.
      split; [assumption|]. split; [auto|].
      intros r' E. inversion E; subst. assumption.
Qed.

Lemma final_cons (e : Entry) (es : list Entry) (g g' : ImageInspectionELF.Globals) :
  final (ImageInspectionELF.run (e :: es) g) = Some g' ->
  exists g1, final (ImageInspectionELF.exec e g) = Some g1
             /\ final (ImageInspectionELF.run es g1) = Some g'.
Proof.
  unfold ImageInspectionELF.run. rewrite execAll_cons.
  destruct (ImageInspectionELF.exec e g) as [t [[[] g1]|]]; [|discriminate].
  intros H. exists g1. split; [reflexivity|]. exact H.
Qed.

Lemma final_app (es1 es2 : list Entry) (g g' : ImageInspectionELF.Globals) :
  final (ImageInspectionELF.run (es1 ++ es2) g) = Some g' ->
  exists g1, final (ImageInspectionELF.run es1 g) = Some g1
             /\ final (ImageInspectionELF.run es2 g1) = Some g'.
Proof.
  unfold ImageInspectionELF.run. rewrite execAll_app.
  destruct (execAll ImageInspectionELF.exec es1 g) as [t [[[] g1]|]]; [|discriminate].
  intros H. exists g1. split; [reflexivity|]. exact H.
Qed.

Lemma run_steps (es : list Entry) (g g' : ImageInspectionELF.Globals) :
  consistent g ->
  final (ImageInspectionELF.run es g) = Some g' ->
  consistent g'
  /\ (forall r, phaseOf r g = Some Activated -> phaseOf r g' = Some Activated).
Proof.
  revert g. induction es as [|e es IH]; intros g Hc Hf.
  - inversion Hf; subst. auto.
  - apply final_cons in Hf. destruct Hf as (g1 & H1 & H2).
    destruct (exec_step e g g1 Hc H1) as (Hc1 & Hk & _).
    destruct (IH g1 Hc1 H2) as (Hc2 & Hk2). auto.
Qed.

(** After a run in which [Initialize r] completed, [r] is activated. *)
Lemma activated_after (r : Registry) (es1 es2 : list Entry)
    (g : ImageInspectionELF.Globals) :
  final (ImageInspectionELF.run (es1 ++ Initialize r :: es2) ImageInspectionELF.initial)
  = Some g ->
  phaseOf r g = Some Activated.
Proof.
  intros H. apply final_app in H. destruct H as (g1 & H1 & H2).
  destruct (run_steps es1 _ g1 initial_consistent H1) as (Hc1 & _).
  apply final_cons in H2. destruct H2 as (g2 & H2 & H3).
  destruct (exec_step _ g1 g2 Hc1 H2) as (Hc2 & _ & Ha).
  destruct (run_steps es2 g2 g Hc2 H3) as (_ & Hk).
  apply Hk. now apply Ha.
Qed.

Lemma blocksFor_cons (r r0 : Registry) (b : SectionInfo)
    (cs : list (Registry * SectionInfo)) :
  blocksFor r ((r0, b) :: cs)
  = (if Registry_eqb r0 r then [b] else []) ++ blocksFor r cs.
Proof. unfold blocksFor. simpl. now destruct (Registry_eqb r0 r). Qed.

Lemma run_adds (cs : list (Registry * SectionInfo)) :
  forall g, inactive g ->
  exists g',
    ImageInspectionELF.run (map addOf cs) g = ([], Some (tt, g'))
    /\ inactive g'
    /\ (forall r, pending r g' = pending r g ++ filter nonEmpty (blocksFor r cs))
    /\ (forall r, phaseOf r g <> Some Untouched -> phaseOf r g' <> Some Untouched)
    /\ (forall r, blocksFor r cs <> [] -> phaseOf r g' <> Some Untouched).
Proof.
  induction cs as [|[r0 b] cs IH]; intros g Hin.
  - exists g. split; [reflexivity|]. split; [assumption|].
    split; [intros r; now rewrite app_nil_r|]. split; [auto|]. intros r H; now destruct H.
  - assert (Hp : exists p, phaseOf r0 g = Some p /\ p <> Activated).
    { destruct (Hin r0) as [H|[v H]]; rewrite H; eexists; split; eauto; discriminate. }
    destruct Hp as (p & Hp & Hna).
    destruct (exec_Add_phase r0 b g p Hp) as (g1 & He & Hp1 & Hother & _).
    assert (Hfw : forwarded r0 b p = []) by (destruct p; [reflexivity|reflexivity|congruence]).
    rewrite Hfw in He.
    assert (Hin1 : inactive g1).
    { intros r. destruct (Registry_eq_dec r r0) as [->|Hne].
      - rewrite Hp1. destruct p; simpl; eauto. congruence.
      - rewrite (Hother r Hne). apply Hin. }
    destruct (IH g1 Hin1) as (g2 & Hrun & Hin2 & Hpend & Hu & Hb).
    exists g2. split; [|split; [assumption|split; [|split]]].
    + unfold ImageInspectionELF.run in *. simpl map. rewrite execAll_cons.
      unfold addOf at 1. simpl fst. simpl snd. rewrite He, Hrun. reflexivity.
    + intros r. rewrite Hpend, blocksFor_cons, filter_app, app_assoc. f_equal.
      unfold pending. destruct (Registry_eq_dec r r0) as [->|Hne].
      * rewrite Hp1, Hp.
        replace (Registry_eqb r0 r0) with true by (now destruct r0).
        rewrite <- kept_filter. destruct p; simpl; try reflexivity. congruence.
      * rewrite (Hother r Hne).
        replace (Registry_eqb r0 r) with false
          by (destruct r0, r; simpl; congruence).
        simpl. now rewrite app_nil_r.
    + intros r Hr. apply Hu. destruct (Registry_eq_dec r r0) as [->|Hne].
      * rewrite Hp1. destruct p; discriminate.
      * now rewrite (Hother r Hne).
    + intros r Hr. destruct (Registry_eq_dec r r0) as [->|Hne].
      * apply Hu. rewrite Hp1. destruct p; discriminate.
      * apply Hb. rewrite blocksFor_cons in Hr.
        replace (Registry_eqb r0 r) with false in Hr
          by (destruct r0, r; simpl; congruence).
        exact Hr.
Qed.

Lemma initial_inactive : inactive ImageInspectionELF.initial.
Proof. intros []; left; reflexivity. Qed.

Lemma Initialize_inactive (r : Registry) (g : ImageInspectionELF.Globals) :
  inactive g ->
  trace (ImageInspectionELF.exec (Initialize r) g) = map (callbackOf r) (pending r g).
Proof.
  intros Hin. unfold pending. destruct (Hin r) as [H|[v H]]; rewrite H.
  - now rewrite (exec_Initialize_phase r g _ H).
  - destruct (exec_Initialize_phase r g _ H) as (g' & He & _). now rewrite He.
Qed.

Lemma exec_buffersNonEmpty (e : Entry) (g : ImageInspectionELF.Globals) :
  consistent g -> buffersNonEmpty g ->
  Forall (fun c => callbackSize c <> 0%N) (trace (ImageInspectionELF.exec e g))
  /\ (forall g', final (ImageInspectionELF.exec e g) = Some g' -> buffersNonEmpty g').
Proof.
  intros Hc Hb.
  assert (Hmap : forall r v, Forall (fun b => nonEmpty b = true) v ->
            Forall (fun c => callbackSize c <> 0%N) (map (callbackOf r) v)).
  { intros r v Hv. apply Forall_map. eapply Forall_impl; [|exact Hv].
    intros b Hne. rewrite callbackSize_callbackOf. now apply nonEmpty_size. }
  destruct e as [r b | r];
    (destruct (phaseOf r g) as [p|] eqn:Hp; [|now destruct (Hc r)]).
  - destruct (exec_Add_phase r b g p Hp) as (g1 & He & Hp1 & Hother & _).
    rewrite He. split.
    + unfold trace. simpl. destruct p; simpl; auto. apply Hmap, kept_nonEmpty.
    + intros g' Hf. inversion Hf; subst g'; clear Hf.
      intros r' v Hv. destruct (Registry_eq_dec r' r) as [->|Hne].
      * rewrite Hp1 in Hv. destruct p; simpl in Hv; inversion Hv; subst.
        -- apply kept_nonEmpty.
        -- apply Forall_app. split; [eapply Hb; eauto | apply kept_nonEmpty].
      * rewrite (Hother r' Hne) in Hv. eapply Hb; eauto.
  - pose proof (exec_Initialize_phase r g p Hp) as H. destruct p as [|v|].
    + rewrite H. split; [constructor | discriminate].
    + destruct H as (g1 & He & Hp1 & Hother). rewrite He. split.
      * unfold trace. simpl. apply Hmap. eapply Hb; eauto.
      * intros g' Hf. inversion Hf; subst g'; clear Hf.
        intros r' v' Hv. destruct (Registry_eq_dec r' r) as [->|Hne].
        -- rewrite Hp1 in Hv. discriminate.
        -- rewrite (Hother r' Hne) in Hv. eapply Hb; eauto.
    + rewrite H. split; [constructor|].
      intros g' Hf. inversion Hf; subst g'. assumption.
Qed.

Lemma run_buffersNonEmpty (es : list Entry) :
  forall g, consistent g -> buffersNonEmpty g ->
  Forall (fun c => callbackSize c <> 0%N) (trace (ImageInspectionELF.run es g)).
Proof.
  induction es as [|e es IH]; intros g Hc Hb.
  - constructor.
  - unfold ImageInspectionELF.run in *. rewrite execAll_cons.
    destruct (exec_buffersNonEmpty e g Hc Hb) as (Ht & Hnext).
    destruct (ImageInspectionELF.exec e g) as [t [[[] g1]|]] eqn:He; [|exact Ht].
    unfold trace at 1. simpl fst. apply Forall_app. split; [exact Ht|].
    apply IH.
    + eapply exec_step; [exact Hc|]. rewrite He. reflexivity.
    + apply Hnext. reflexivity.
Qed.

Lemma initial_buffersNonEmpty : buffersNonEmpty ImageInspectionELF.initial.
Proof. intros [] v H; discriminate. Qed.

(** ** The static-executable registries *)

Lemma static_exec_Add (r : Registry) (b : SectionInfo)
    (g : ImageInspectionStatic.Globals) :
  exists g',
    ImageInspectionStatic.exec (Add r b) g = ([], Some (tt, g'))
    /\ ImageInspectionStatic.stored r g' = b
    /\ (forall r', r' <> r ->
        ImageInspectionStatic.stored r' g' = ImageInspectionStatic.stored r' g).
Proof.
  destruct r; simpl; eexists; (split; [reflexivity|]); (split; [reflexivity|]);
    intros [] H; try congruence; reflexivity.
Qed.

Lemma static_exec_Initialize (r : Registry) (g : ImageInspectionStatic.Globals) :
  ImageInspectionStatic.exec (Initialize r) g
  = ([callbackOf r (ImageInspectionStatic.stored r g)], Some (tt, g)).
Proof. destruct r; reflexivity. Qed.

Lemma last_cons_default {A} (l : list A) (x d : A) : last (x :: l) d = last l x.
Proof.
  revert x d. induction l as [|y l IH]; intros x d; [reflexivity|].
  change (last (x :: y :: l) d) with (last (y :: l) d). rewrite !IH. reflexivity.
Qed.

Lemma static_run_adds (cs : list (Registry * SectionInfo)) :
  forall g, exists g',
    ImageInspectionStatic.run (map addOf cs) g = ([], Some (tt, g'))
    /\ forall r, ImageInspectionStatic.stored r g'
                 = last (blocksFor r cs) (ImageInspectionStatic.stored r g).
Proof.
  induction cs as [|[r0 b] cs IH]; intros g.
  - exists g. split; [reflexivity|]. intros r. reflexivity.
  - destruct (static_exec_Add r0 b g) as (g1 & He & Hs & Hother).
    destruct (IH g1) as (g2 & Hrun & Hlast).
    exists g2. split.
    + unfold ImageInspectionStatic.run in *. simpl map. rewrite execAll_cons.
      unfold addOf at 1. simpl fst. simpl snd. rewrite He, Hrun. reflexivity.
    + intros r. rewrite Hlast, blocksFor_cons.
      destruct (Registry_eq_dec r r0) as [->|Hne].
      * replace (Registry_eqb r0 r0) with true by (now destruct r0).
        simpl app. rewrite last_cons_default. now rewrite Hs.
      * replace (Registry_eqb r0 r) with false
          by (destruct r0, r; simpl; congruence).
        simpl app. now rewrite (Hother r Hne).
Qed.

(* ===================================================================== *)
(** * The claims on the registries *)
(* ===================================================================== *)

(** C1 (as amended).  In the dynamic-ELF registries (protocol conformance
    and type metadata), for every sequence of contribute and activate
    calls, no drain callback is ever called with a size of 0, neither before
    nor after activation.  In the static-executable configuration a
    contribution stores the block whatever its size and makes no callback,
    and activate passes the stored block to the callback whatever its
    size. *)
Theorem zero_size_block_never_forwarded_dynamic :
  (forall es : list Entry,
      Forall (fun c => callbackSize c <> 0%N)
        (trace (ImageInspectionELF.run es ImageInspectionELF.initial)))
  /\ (forall r b g, exists g',
        ImageInspectionStatic.exec (Add r b) g = ([], Some (tt, g'))
        /\ ImageInspectionStatic.stored r g' = b)
  /\ (forall r g,
        ImageInspectionStatic.exec (Initialize r) g
        = ([callbackOf r (ImageInspectionStatic.stored r g)], Some (tt, g))).
Proof.
  split; [|split].
  - intros es. apply run_buffersNonEmpty.
    + apply initial_consistent.
    + apply initial_buffersNonEmpty.
  - intros r b g. destruct (static_exec_Add r b g) as (g' & He & Hs & _). eauto.
  - apply static_exec_Initialize.
Qed.

(** C1 as stated fails in the static-executable configuration: a block of
    size 0 contributed to the protocol-conformance registry is passed to
    addImageProtocolConformanceBlockCallback at activation. *)
Lemma zero_size_block_forwarded_static :
  trace (ImageInspectionStatic.run
           [Add ProtocolConformance (mkSectionInfo 4096 0);
            Initialize ProtocolConformance]
           ImageInspectionStatic.initial)
  = [addImageProtocolConformanceBlockCallback 4096 0]
  /\ ~ (forall es : list Entry,
          Forall (fun c => callbackSize c <> 0%N)
            (trace (ImageInspectionStatic.run es ImageInspectionStatic.initial))).
Proof.
  split; [reflexivity|].
  intros H.
  specialize (H [Add ProtocolConformance (mkSectionInfo 4096 0);
                 Initialize ProtocolConformance]).
  inversion H as [|c l Hc _]. now apply Hc.
Qed.

(** C5.  For every sequence of contribute calls (to either dynamic-ELF
    registry, in any interleaving) followed by one activate of registry [r]:
    the drain callback of [r] receives exactly the blocks of nonzero size
    contributed to [r], in the order of their contribution, each once. *)
Theorem activate_drains_nonempty_blocks_in_order
    (r : Registry) (cs : list (Registry * SectionInfo)) :
  trace (ImageInspectionELF.run (map addOf cs ++ [Initialize r])
           ImageInspectionELF.initial)
  = map (callbackOf r) (filter nonEmpty (blocksFor r cs)).
Proof.
  unfold ImageInspectionELF.run. rewrite execAll_app.
  destruct (run_adds cs _ initial_inactive) as (g' & Hrun & Hin & Hpend & _).
  unfold ImageInspectionELF.run in Hrun. rewrite Hrun, execAll_one.
  assert (H0 : pending r ImageInspectionELF.initial = []) by (now destruct r).
  rewrite (Initialize_inactive r g' Hin), Hpend, H0. reflexivity.
Qed.

(** The activation of C5 completes (the assertion on the lock holds) as
    soon as the registry received one contribution, of any size. *)
Lemma activate_completes (r : Registry) (cs : list (Registry * SectionInfo)) :
  blocksFor r cs <> [] ->
  exists g,
    final (ImageInspectionELF.run (map addOf cs ++ [Initialize r])
             ImageInspectionELF.initial) = Some g
    /\ ImageInspectionELF.bufferOf r g = None.
Proof.
  intros Hne. unfold ImageInspectionELF.run. rewrite execAll_app.
  destruct (run_adds cs _ initial_inactive) as (g' & Hrun & Hin & _ & _ & Hb).
  unfold ImageInspectionELF.run in Hrun. rewrite Hrun, execAll_one.
  specialize (Hb r Hne).
  destruct (Hin r) as [H|[v H]]; [congruence|].
  destruct (exec_Initialize_phase r g' _ H) as (g2 & He & Hp2 & _).
  rewrite He. exists g2. split; [reflexivity|].
  unfold phaseOf in Hp2.
  destruct (ImageInspectionELF.onceOf r g2), (ImageInspectionELF.lockOf r g2),
    (ImageInspectionELF.bufferOf r g2); congruence.
Qed.

(** C9.  In the dynamic-ELF registries, an activate of registry [r] called
    after an activate of [r] has completed (whatever was called before and
    in between) makes no callback and leaves the statics as they are. *)
Theorem second_activate_is_noop
    (r : Registry) (es1 es2 : list Entry) (g : ImageInspectionELF.Globals) :
  final (ImageInspectionELF.run (es1 ++ Initialize r :: es2)
           ImageInspectionELF.initial) = Some g ->
  ImageInspectionELF.exec (Initialize r) g = ([], Some (tt, g)).
Proof.
  intros H. pose proof (activated_after r es1 es2 g H) as Ha.
  exact (exec_Initialize_phase r g _ Ha).
Qed.

Lemma second_activate_is_noop_witness :
  final (ImageInspectionELF.run
           ([Add ProtocolConformance (mkSectionInfo 4096 16)]
              ++ Initialize ProtocolConformance :: [])
           ImageInspectionELF.initial)
  = Some (ImageInspectionELF.mkGlobals (Some ImageInspectionELF.NewMutex) None
            None None true false)
  /\ ImageInspectionELF.exec (Initialize ProtocolConformance)
       (ImageInspectionELF.mkGlobals (Some ImageInspectionELF.NewMutex) None
          None None true false)
     = ([], Some (tt, ImageInspectionELF.mkGlobals
                        (Some ImageInspectionELF.NewMutex) None None None true false)).
Proof.
  split; [reflexivity|].
  apply (second_activate_is_noop ProtocolConformance
           [Add ProtocolConformance (mkSectionInfo 4096 16)] []).
  reflexivity.
Defined.

(** C10.  In the static-executable configuration, for every sequence of
    contribute calls (to either registry, in any interleaving) followed by
    the activate of registry [r], the drain callback of [r] is called
    exactly once, with the block contributed to [r] last, or with the
    zero-initialised block (null pointer, size 0) when [r] received none. *)
Theorem static_activate_forwards_last_block
    (r : Registry) (cs : list (Registry * SectionInfo)) :
  trace (ImageInspectionStatic.run (map addOf cs ++ [Initialize r])
           ImageInspectionStatic.initial)
  = [callbackOf r (last (blocksFor r cs) (mkSectionInfo 0 0))].
Proof.
  unfold ImageInspectionStatic.run. rewrite execAll_app.
  destruct (static_run_adds cs ImageInspectionStatic.initial) as (g' & Hrun & Hlast).
  unfold ImageInspectionStatic.run in Hrun.
  rewrite Hrun, execAll_one, static_exec_Initialize.
  unfold trace. simpl. rewrite Hlast. now destruct r.
Qed.

(* ===================================================================== *)
(** * Properties of the static-binary parser *)
(* ===================================================================== *)

Module StaticELFFacts.
Import StaticELF.
Local Open Scope Z_scope.
Local Open Scope elf_scope.

(** ** Loops over arrays *)

Lemma bind_Ok {A B} (m : Result A) (k : A -> Result B) (b : B) :
  bind m k = Ok b -> exists a, m = Ok a /\ k a = Ok b.
Proof. destruct m as [a|]; simpl; [eauto | discriminate]. Qed.

(** A loop whose body decides on the element it reads returns at the first
    element of the array that passes the test. *)
Lemma forLoop_firstHit {A C} (read : Z -> Result A) (body : Z -> Result (option C))
    (test : Z -> A -> bool) (out : Z -> A -> C) :
  (forall idx x, read idx = Ok x ->
                 body idx = Ok (if test idx x then Some (out idx x) else None)) ->
  forall n idx xs,
    readArray read n idx = Ok xs ->
    forLoop n idx body
    = Ok (option_map (fun hit => out (fst hit) (snd hit)) (firstHit test idx xs)).
Proof.
  intros Hbody. induction n as [|n IH]; intros idx xs Hr; simpl in *.
  - inversion Hr; subst. reflexivity.
  - apply bind_Ok in Hr. destruct Hr as (x & Hx & Hr).
    apply bind_Ok in Hr. destruct Hr as (rest & Hrest & Hr).
    inversion Hr; subst xs; clear Hr.
    rewrite (Hbody idx x Hx). simpl. destruct (test idx x); simpl; [reflexivity|].
    now apply IH.
Qed.

Lemma firstHit_Some {A} (test : Z -> A -> bool) (xs : list A) :
  forall idx i x,
    firstHit test idx xs = Some (i, x) ->
    exists k : nat,
      i = idx + Z.of_nat k
      /\ nth_error xs k = Some x
      /\ test i x = true
      /\ forall (j : nat) y, (j < k)%nat -> nth_error xs j = Some y ->
                             test (idx + Z.of_nat j) y = false.
Proof.
  induction xs as [|x0 xs IH]; intros idx i x H; simpl in H; [discriminate|].
  destruct (test idx x0) eqn:Ht.
  - inversion H; subst. exists O. rewrite Z.add_0_r.
    repeat split; auto. intros j y Hj. lia.
  - apply IH in H. destruct H as (k & Hi & Hn & Hti & Hbefore).
    exists (S k). repeat split; auto; [lia|].
    intros [|j] y Hj Hy; simpl in Hy.
    + inversion Hy; subst. now rewrite Z.add_0_r.
    + replace (idx + Z.of_nat (S j)) with (idx + 1 + Z.of_nat j) by lia.
      apply Hbefore; [lia | assumption].
Qed.

Lemma firstHit_None {A} (test : Z -> A -> bool) (xs : list A) :
  forall idx,
    firstHit test idx xs = None ->
    forall (k : nat) y, nth_error xs k = Some y -> test (idx + Z.of_nat k) y = false.
Proof.
  induction xs as [|x0 xs IH]; intros idx H k y Hy.
  - destruct k; discriminate.
  - simpl in H. destruct (test idx x0) eqn:Ht; [discriminate|].
    destruct k as [|k]; simpl in Hy.
    + inversion Hy; subst. now rewrite Z.add_0_r.
    + replace (idx + Z.of_nat (S k)) with (idx + 1 + Z.of_nat k) by lia.
      now apply (IH (idx + 1)).
Qed.

Lemma readArray_length {A} (read : Z -> Result A) :
  forall n idx xs, readArray read n idx = Ok xs -> length xs = n.
Proof.
  induction n as [|n IH]; intros idx xs H; simpl in H.
  - inversion H. reflexivity.
  - apply bind_Ok in H. destruct H as (x & _ & H).
    apply bind_Ok in H. destruct H as (rest & Hrest & H).
    inversion H; subst. simpl. f_equal. eauto.
Qed.

Section ParserFacts.

Variable T : ElfTypes.
Variable os : OS.

(** ** The queries on a disabled parser *)

Lemma getSectionLoadAddress_null (s : StaticBinaryELF) (addr : Z) :
  elfHeader s = 0 -> getSectionLoadAddress T os s addr = Ok 0.
Proof. intros H. unfold getSectionLoadAddress. now rewrite H. Qed.

Lemma findSymbol_null (s : StaticBinaryELF) (addr : Z) :
  symbolTable s = 0 -> findSymbol T os s addr = Ok 0.
Proof. intros H. unfold findSymbol. now rewrite H. Qed.

(** ** getSectionLoadAddress *)

Lemma segmentContains_spec (addr : Z) (h : Phdr) :
  segmentContains T addr h = true
  <-> ph_type h = PT_LOAD
      /\ ph_vaddr h <= addr <= (ph_vaddr h + ph_memsz h) mod 2 ^ wordBits T.
Proof.
  unfold segmentContains, wrap.
  rewrite !andb_true_iff, Z.eqb_eq, !Z.leb_le. tauto.
Qed.

Lemma loadSegment_body (s : StaticBinaryELF) (addr p : Z) (h : Phdr) :
  phdrAt T os s p = Ok h ->
  (hit <- (ty <- load os s p (p_type T) ;; Ok (ty =? PT_LOAD))
          &&& (vaddr <- load os s p (p_vaddr T) ;; Ok (vaddr <=? addr))
          &&& (vaddr <- load os s p (p_vaddr T) ;;
               memsz <- load os s p (p_memsz T) ;;
               Ok (addr <=? wrap T (vaddr + memsz))) ;;
   if hit then (vaddr <- load os s p (p_vaddr T) ;; Ok (Some vaddr))
   else Ok None)
  = Ok (if segmentContains T addr h then Some (ph_vaddr h) else None).
Proof.
  unfold phdrAt. intros H.
  apply bind_Ok in H. destruct H as (ty & Hty & H).
  apply bind_Ok in H. destruct H as (va & Hva & H).
  apply bind_Ok in H. destruct H as (ms & Hms & H).
  inversion H; subst h; clear H.
  unfold segmentContains, andAlso. simpl. rewrite Hty. simpl.
  destruct (ty =? PT_LOAD); simpl; [|reflexivity].
  rewrite Hva. simpl. destruct (va <=? addr); simpl; [|reflexivity].
  rewrite Hms. simpl. destruct (addr <=? wrap T (va + ms)); simpl; reflexivity.
Qed.

Lemma getSectionLoadAddress_firstHit (s : StaticBinaryELF) (addr : Z) (phs : list Phdr) :
  elfHeader s <> 0 ->
  programHeaders T os s = Ok phs ->
  getSectionLoadAddress T os s addr
  = Ok (match firstHit (fun _ h => segmentContains T addr h) 0 phs with
        | Some (_, h) => ph_vaddr h
        | None => 0
        end).
Proof.
  intros Hnz Hv. unfold getSectionLoadAddress.
  apply Z.eqb_neq in Hnz. rewrite Hnz. simpl negb. cbv iota.
  unfold programHeaders in Hv.
  apply bind_Ok in Hv. destruct Hv as (phoff & Hphoff & Hv).
  apply bind_Ok in Hv. destruct Hv as (phnum & Hphnum & Hv).
  rewrite Hphoff. simpl. rewrite Hphnum. simpl.
  erewrite (forLoop_firstHit _ _ (fun _ h => segmentContains T addr h)
              (fun _ h => ph_vaddr h)); [| |exact Hv].
  - simpl. destruct (firstHit _ 0 phs) as [[i h]|]; reflexivity.
  - intros idx h Hh. now apply loadSegment_body.
Qed.

(** C7.  getSectionLoadAddress (the specification's loadSegmentContaining)
    scans the program headers in table order: when some header has type
    PT_LOAD and holds [addr] in its closed range
    [p_vaddr, p_vaddr + p_memsz] (the sum being the Elf_Addr sum the code
    computes), it returns the p_vaddr of the first such header; when no
    header qualifies it returns null; on a disabled parser (null elfHeader)
    it returns null.  Both ends of the range are included. *)
Theorem getSectionLoadAddress_load_segment
    (s : StaticBinaryELF) (addr : Z) (phs : list Phdr) :
  elfHeader s <> 0 ->
  programHeaders T os s = Ok phs ->
  ((exists (k : nat) h,
       nth_error phs k = Some h
       /\ ph_type h = PT_LOAD
       /\ ph_vaddr h <= addr <= (ph_vaddr h + ph_memsz h) mod 2 ^ wordBits T
       /\ (forall (j : nat) h', (j < k)%nat -> nth_error phs j = Some h' ->
                                segmentContains T addr h' = false)
       /\ getSectionLoadAddress T os s addr = Ok (ph_vaddr h))
   \/ ((forall h, In h phs ->
                  ~ (ph_type h = PT_LOAD
                     /\ ph_vaddr h <= addr
                        <= (ph_vaddr h + ph_memsz h) mod 2 ^ wordBits T))
       /\ getSectionLoadAddress T os s addr = Ok 0))
  /\ getSectionLoadAddress T os (withElfHeader s 0) addr = Ok 0
  /\ (forall h, 0 <= ph_vaddr h + ph_memsz h < 2 ^ wordBits T ->
                (segmentContains T addr h = true
                 <-> ph_type h = PT_LOAD
                     /\ ph_vaddr h <= addr <= ph_vaddr h + ph_memsz h))
  /\ (forall h, ph_type h = PT_LOAD -> 0 <= ph_vaddr h -> 0 <= ph_memsz h ->
                ph_vaddr h + ph_memsz h < 2 ^ wordBits T ->
                segmentContains T (ph_vaddr h) h = true
                /\ segmentContains T (ph_vaddr h + ph_memsz h) h = true).
Proof.
  intros Hnz Hv. split; [|split; [|split]].
  - rewrite (getSectionLoadAddress_firstHit s addr phs Hnz Hv).
    destruct (firstHit (fun _ h => segmentContains T addr h) 0 phs) as [[i h]|] eqn:Hf.
    + left. apply firstHit_Some in Hf. destruct Hf as (k & _ & Hn & Ht & Hb).
      apply segmentContains_spec in Ht. destruct Ht as (Hty & Hrange).
      exists k, h. repeat split; try assumption; try apply Hrange.
    + right. split; [|reflexivity]. intros h Hin Hc.
      apply In_nth_error in Hin. destruct Hin as (k & Hk).
      apply segmentContains_spec in Hc.
      pose proof (firstHit_None _ _ _ Hf k h Hk) as Hn. simpl in Hn. congruence.
  - now apply getSectionLoadAddress_null.
  - intros h Hsmall. rewrite segmentContains_spec, Z.mod_small by exact Hsmall.
    reflexivity.
  - intros h Hty H0 H1 H2. split; apply segmentContains_spec; (split; [assumption|]);
      rewrite Z.mod_small; lia.
Qed.

(** ** findSymbol *)

Lemma symbolContains_spec (addr : Z) (y : Sym) :
  symbolContains T addr y = true
  <-> ELF_ST_TYPE (sym_info y) = STT_FUNC
      /\ sym_value y <= addr < (sym_value y + sym_size y) mod 2 ^ wordBits T.
Proof.
  unfold symbolContains, wrap.
  rewrite !andb_true_iff, Z.eqb_eq, Z.leb_le, Z.ltb_lt. tauto.
Qed.

Lemma findSymbol_body (s : StaticBinaryELF) (addr p : Z) (y : Sym) :
  symAt T os s p = Ok y ->
  (hit <- (info <- load os s p (st_info T) ;; Ok (ELF_ST_TYPE info =? STT_FUNC))
          &&& (value <- load os s p (st_value T) ;; Ok (value <=? addr))
          &&& (value <- load os s p (st_value T) ;;
               sz <- load os s p (st_size T) ;;
               Ok (addr <? wrap T (value + sz))) ;;
   if hit then Ok (Some p) else Ok None)
  = Ok (if symbolContains T addr y then Some p else None).
Proof.
  unfold symAt. intros H.
  apply bind_Ok in H. destruct H as (info & Hinfo & H).
  apply bind_Ok in H. destruct H as (va & Hva & H).
  apply bind_Ok in H. destruct H as (sz & Hsz & H).
  inversion H; subst y; clear H.
  unfold symbolContains, andAlso. simpl. rewrite Hinfo. simpl.
  destruct (ELF_ST_TYPE info =? STT_FUNC); simpl; [|reflexivity].
  rewrite Hva. simpl. destruct (va <=? addr); simpl; [|reflexivity].
  rewrite Hsz. simpl. destruct (addr <? wrap T (va + sz)); simpl; reflexivity.
Qed.

Lemma findSymbol_firstHit (s : StaticBinaryELF) (addr base : Z) (syms : list Sym) :
  symbolTable s <> 0 ->
  symbols T os s = Ok (base, syms) ->
  findSymbol T os s addr
  = Ok (match firstHit (fun _ y => symbolContains T addr y) 0 syms with
        | Some (i, _) => base + i * sizeof_Sym T
        | None => 0
        end).
Proof.
  intros Hnz Hv. unfold findSymbol.
  apply Z.eqb_neq in Hnz. rewrite Hnz. simpl negb. cbv iota.
  unfold symbols in Hv.
  apply bind_Ok in Hv. destruct Hv as (size & Hsize & Hv).
  apply bind_Ok in Hv. destruct Hv as (entsize & Hentsize & Hv).
  rewrite Hsize. simpl. rewrite Hentsize. simpl.
  destruct (entsize =? 0); [discriminate|].
  apply bind_Ok in Hv. destruct Hv as (off & Hoff & Hv).
  apply bind_Ok in Hv. destruct Hv as (ys & Hys & Hv).
  inversion Hv; subst base syms; clear Hv.
  rewrite Hoff. simpl.
  erewrite (forLoop_firstHit _ _ (fun _ y => symbolContains T addr y)
              (fun idx _ => mapping s + off + idx * sizeof_Sym T)); [| |exact Hys].
  - simpl. destruct (firstHit _ 0 ys) as [[i y]|]; reflexivity.
  - intros idx y Hy. now apply findSymbol_body.
Qed.

(** C6.  findSymbol scans the symbol table in table order and returns (the
    address of) the first entry whose type is STT_FUNC and whose half-open
    range [st_value, st_value + st_size) holds [addr], the sum being the
    Elf_Addr sum the code computes; it returns null when no entry qualifies
    and when the symbol table is absent.  The address st_value + st_size of
    a symbol does not match that symbol. *)
Theorem findSymbol_first_function_symbol
    (s : StaticBinaryELF) (addr base : Z) (syms : list Sym) :
  symbolTable s <> 0 ->
  symbols T os s = Ok (base, syms) ->
  ((exists (k : nat) y,
       nth_error syms k = Some y
       /\ ELF_ST_TYPE (sym_info y) = STT_FUNC
       /\ sym_value y <= addr < (sym_value y + sym_size y) mod 2 ^ wordBits T
       /\ (forall (j : nat) y', (j < k)%nat -> nth_error syms j = Some y' ->
                                symbolContains T addr y' = false)
       /\ findSymbol T os s addr = Ok (base + Z.of_nat k * sizeof_Sym T))
   \/ ((forall y, In y syms ->
                  ~ (ELF_ST_TYPE (sym_info y) = STT_FUNC
                     /\ sym_value y <= addr
                        < (sym_value y + sym_size y) mod 2 ^ wordBits T))
       /\ findSymbol T os s addr = Ok 0))
  /\ findSymbol T os (withSymbolTable s 0) addr = Ok 0
  /\ (forall y, 0 <= sym_value y + sym_size y < 2 ^ wordBits T ->
                (symbolContains T addr y = true
                 <-> ELF_ST_TYPE (sym_info y) = STT_FUNC
                     /\ sym_value y <= addr < sym_value y + sym_size y))
  /\ (forall y,
        symbolContains T ((sym_value y + sym_size y) mod 2 ^ wordBits T) y = false)
  /\ (forall y, 0 <= sym_value y + sym_size y ->
                symbolContains T (sym_value y + sym_size y) y = false).
Proof.
  intros Hnz Hv. split; [|split; [|split; [|split]]].
  - rewrite (findSymbol_firstHit s addr base syms Hnz Hv).
    destruct (firstHit (fun _ y => symbolContains T addr y) 0 syms) as [[i y]|] eqn:Hf.
    + left. apply firstHit_Some in Hf. destruct Hf as (k & Hi & Hn & Ht & Hb).
      apply symbolContains_spec in Ht. destruct Ht as (Hty & Hrange).
      exists k, y. subst i. repeat split; try assumption; try apply Hrange.
    + right. split; [|reflexivity]. intros y Hin Hc.
      apply In_nth_error in Hin. destruct Hin as (k & Hk).
      apply symbolContains_spec in Hc.
      pose proof (firstHit_None _ _ _ Hf k y Hk) as Hn. simpl in Hn. congruence.
  - now apply findSymbol_null.
  - intros y Hsmall. rewrite symbolContains_spec, Z.mod_small by exact Hsmall.
    reflexivity.
  - intros y. unfold symbolContains, wrap.
    rewrite Z.ltb_irrefl. now rewrite andb_false_r.
  - intros y H0. unfold symbolContains, wrap.
    assert (Hle : (sym_value y + sym_size y) mod 2 ^ wordBits T
                  <= sym_value y + sym_size y).
    { destruct (Z_lt_le_dec 0 (2 ^ wordBits T)) as [Hp|Hp].
      - now apply Z.mod_le.
      - pose proof (Z.pow_nonneg 2 (wordBits T) ltac:(lia)).
        assert (E : 2 ^ wordBits T = 0) by lia. rewrite E, Z.mod_0_r. lia. }
    replace (sym_value y + sym_size y <? (sym_value y + sym_size y) mod 2 ^ wordBits T)
      with false by (symmetry; apply Z.ltb_ge; exact Hle).
    now rewrite andb_false_r.
Qed.

(** ** Validation of the header *)

Ltac read_view H :=
  repeat (let x := fresh "x" in let Hx := fresh "Hx" in
          apply bind_Ok in H; destruct H as (x & Hx & H));
  inversion H; subst; clear H.

Lemma magicDiffers_view (s : StaticBinaryELF) (h : Ehdr) :
  ehdrAt T os s (elfHeader s) = Ok h ->
  magicDiffers os s
  = Ok (negb (eh_mag0 h =? ELFMAG0) || negb (eh_mag1 h =? ELFMAG1)
        || negb (eh_mag2 h =? ELFMAG2) || negb (eh_mag3 h =? ELFMAG3)).
Proof.
  unfold ehdrAt. intros H. read_view H.
  unfold magicDiffers, orElse, differs. simpl. rewrite Hx. simpl.
  destruct (x =? ELFMAG0); simpl; [|reflexivity].
  rewrite Hx0. simpl. destruct (x0 =? ELFMAG1); simpl; [|reflexivity].
  rewrite Hx1. simpl. destruct (x1 =? ELFMAG2); simpl; [|reflexivity].
  rewrite Hx2. simpl. reflexivity.
Qed.

Lemma notCurrentExecutable_view (s : StaticBinaryELF) (h : Ehdr) :
  ehdrAt T os s (elfHeader s) = Ok h ->
  notCurrentExecutable T os s
  = Ok (negb (eh_class h =? ELFCLASS T) || negb (eh_type h =? ET_EXEC)
        || negb (eh_version h =? EV_CURRENT) || negb (eh_ehsize h =? sizeof_Ehdr T)).
Proof.
  unfold ehdrAt. intros H. read_view H.
  unfold notCurrentExecutable, orElse, differs. simpl. rewrite Hx3. simpl.
  destruct (x3 =? ELFCLASS T); simpl; [|reflexivity].
  rewrite Hx4. simpl. destruct (x4 =? ET_EXEC); simpl; [|reflexivity].
  rewrite Hx5. simpl. destruct (x5 =? EV_CURRENT); simpl; [|reflexivity].
  rewrite Hx6. simpl. reflexivity.
Qed.

Lemma rejected_iff (h : Ehdr) :
  rejected T h
  <-> (negb (eh_mag0 h =? ELFMAG0) || negb (eh_mag1 h =? ELFMAG1)
       || negb (eh_mag2 h =? ELFMAG2) || negb (eh_mag3 h =? ELFMAG3)) = true
      \/ (negb (eh_class h =? ELFCLASS T) || negb (eh_type h =? ET_EXEC)
          || negb (eh_version h =? EV_CURRENT)
          || negb (eh_ehsize h =? sizeof_Ehdr T)) = true.
Proof.
  unfold rejected.
  repeat rewrite orb_true_iff. repeat rewrite negb_true_iff.
  repeat rewrite Z.eqb_neq. tauto.
Qed.

(** ** The scan for PT_INTERP *)

Lemma hasInterpreter_view (s : StaticBinaryELF) (phs : list Phdr) :
  programHeaders T os s = Ok phs ->
  hasInterpreter T os s = Ok (existsb (fun h => ph_type h =? PT_INTERP) phs).
Proof.
  intros Hv. unfold programHeaders in Hv.
  apply bind_Ok in Hv. destruct Hv as (phoff & Hphoff & Hv).
  apply bind_Ok in Hv. destruct Hv as (phnum & Hphnum & Hv).
  unfold hasInterpreter. rewrite Hphoff. simpl. rewrite Hphnum. simpl.
  erewrite (forLoop_firstHit _ _ (fun _ h => ph_type h =? PT_INTERP)
              (fun _ _ => tt)); [| |exact Hv].
  - simpl. clear Hv. generalize 0 at 1. induction phs as [|h phs IH]; intros i; simpl.
    + reflexivity.
    + destruct (ph_type h =? PT_INTERP); simpl; [reflexivity|]. apply IH.
  - intros idx h Hh. unfold phdrAt in Hh. read_view Hh. rewrite Hx. simpl.
    destruct (x =? PT_INTERP); reflexivity.
Qed.

(** ** A failed readElfHeader leaves the parser disabled *)

Lemma construct_readElfHeader_false (bytes : list byte) (map : Z) (s' : StaticBinaryELF) :
  os_open os = Some bytes -> os_fstat os = true -> os_mmap os = Some map ->
  readElfHeader T os
    (mkStaticBinaryELF (sizeof_Ehdr T) (wrap T (Z.of_nat (length bytes))) map 0 0 0)
  = Ok (s', false) ->
  construct T os = Ok (mkStaticBinaryELF 0 (fileSize s') 0 0 0 0).
Proof.
  intros Ho Hf Hm Hr. unfold construct, mmapExecutable.
  rewrite Ho, Hf, Hm. simpl. rewrite Hr. reflexivity.
Qed.

Lemma readElfHeader_rejects (s : StaticBinaryELF) (h : Ehdr) :
  ehdrAt T os (withElfHeader s (mapping s)) (mapping s) = Ok h ->
  (rejected T h
   \/ exists s1 phs,
        mapProgramHeaders T os (withElfHeader s (mapping s)) = Ok (s1, true)
        /\ programHeaders T os s1 = Ok phs
        /\ Exists (fun p => ph_type p = PT_INTERP) phs) ->
  exists s', readElfHeader T os s = Ok (s', false).
Proof.
  intros Hh Hcase. unfold readElfHeader.
  rewrite (magicDiffers_view _ h Hh). simpl bind.
  destruct (negb (eh_mag0 h =? ELFMAG0) || negb (eh_mag1 h =? ELFMAG1)
            || negb (eh_mag2 h =? ELFMAG2) || negb (eh_mag3 h =? ELFMAG3)) eqn:Hb1;
    [eexists; reflexivity|].
  rewrite (notCurrentExecutable_view _ h Hh). simpl bind.
  destruct (negb (eh_class h =? ELFCLASS T) || negb (eh_type h =? ET_EXEC)
            || negb (eh_version h =? EV_CURRENT)
            || negb (eh_ehsize h =? sizeof_Ehdr T)) eqn:Hb2;
    [eexists; reflexivity|].
  destruct Hcase as [Hrej | (s1 & phs & Hmap & Hphs & Hex)].
  - apply rejected_iff in Hrej. rewrite Hb1, Hb2 in Hrej.
    destruct Hrej; discriminate.
  - rewrite Hmap. simpl. rewrite (hasInterpreter_view s1 phs Hphs). simpl.
    assert (Hi : existsb (fun p => ph_type p =? PT_INTERP) phs = true).
    { apply existsb_exists. apply Exists_exists in Hex.
      destruct Hex as (p & Hin & Hp). exists p. split; [assumption|].
      now apply Z.eqb_eq. }
    rewrite Hi. eexists; reflexivity.
Qed.

(** C4.  When the executable opens and maps and its header is readable: if
    the header fails validation (wrong magic bytes, class other than the
    host's ELFCLASS, type other than ET_EXEC, version other than
    EV_CURRENT, e_ehsize other than sizeof(Elf_Ehdr)), or the header is
    valid, the program headers map and one of them has type PT_INTERP, then
    construction completes with the parser disabled (null mapping, header,
    symbol table and string table) and the two queries return null for
    every address. *)
Theorem rejected_executable_disables_parser
    (bytes : list byte) (map : Z) (h : Ehdr) :
  os_open os = Some bytes -> os_fstat os = true -> os_mmap os = Some map ->
  ehdrAt T os
    (mkStaticBinaryELF (sizeof_Ehdr T) (wrap T (Z.of_nat (length bytes))) map map 0 0) map
  = Ok h ->
  (rejected T h
   \/ exists s1 phs,
        mapProgramHeaders T os
          (mkStaticBinaryELF (sizeof_Ehdr T) (wrap T (Z.of_nat (length bytes))) map map 0 0)
        = Ok (s1, true)
        /\ programHeaders T os s1 = Ok phs
        /\ Exists (fun p => ph_type p = PT_INTERP) phs) ->
  exists s,
    construct T os = Ok s
    /\ mapping s = 0 /\ elfHeader s = 0 /\ symbolTable s = 0 /\ stringTable s = 0
    /\ forall addr,
        getSectionLoadAddress T os s addr = Ok 0 /\ findSymbol T os s addr = Ok 0.
Proof.
  intros Ho Hf Hm Hh Hcase.
  destruct (readElfHeader_rejects
              (mkStaticBinaryELF (sizeof_Ehdr T) (wrap T (Z.of_nat (length bytes))) map 0 0 0)
              h Hh Hcase) as (s' & Hr).
  exists (mkStaticBinaryELF 0 (fileSize s') 0 0 0 0).
  split; [now apply (construct_readElfHeader_false bytes map s')|].
  do 4 (split; [reflexivity|]). intros addr. split; reflexivity.
Qed.

(** ** findSection *)

Lemma firstHit_intro {A} (test : Z -> A -> bool) (xs : list A) :
  forall idx (k : nat) x,
    nth_error xs k = Some x ->
    test (idx + Z.of_nat k) x = true ->
    (forall (j : nat) y, (j < k)%nat -> nth_error xs j = Some y ->
                         test (idx + Z.of_nat j) y = false) ->
    firstHit test idx xs = Some (idx + Z.of_nat k, x).
Proof.
  induction xs as [|x0 xs IH]; intros idx k x Hn Ht Hb.
  - destruct k; discriminate.
  - destruct k as [|k].
    + simpl in Hn. inversion Hn; subst. change (Z.of_nat 0) with 0 in *.
      rewrite Z.add_0_r in *. simpl. now rewrite Ht.
    + assert (H0 : test idx x0 = false).
      { specialize (Hb O x0). change (Z.of_nat 0) with 0 in Hb.
        rewrite Z.add_0_r in Hb. apply Hb; [lia | reflexivity]. }
      simpl firstHit. rewrite H0.
      replace (idx + Z.of_nat (S k)) with (idx + 1 + Z.of_nat k) in * by lia.
      apply IH; [exact Hn | exact Ht |].
      intros j y Hj Hy.
      replace (idx + 1 + Z.of_nat j) with (idx + Z.of_nat (S j)) by lia.
      apply Hb; [lia | exact Hy].
Qed.

Lemma findSection_firstHit (s : StaticBinaryELF) (sectionType headers shstrndx : Z)
    (hs : list Shdr) :
  sectionHeaders T os s = Ok (headers, shstrndx, hs) ->
  findSection T os s sectionType
  = Ok (match firstHit (candidate shstrndx sectionType) 0 hs with
        | Some (i, h) => selected T os s headers i h
        | None => (s, 0)
        end).
Proof.
  intros Hv. unfold sectionHeaders in Hv.
  apply bind_Ok in Hv. destruct Hv as (shoff & Hshoff & Hv).
  apply bind_Ok in Hv. destruct Hv as (shnum & Hshnum & Hv).
  apply bind_Ok in Hv. destruct Hv as (ndx & Hndx & Hv).
  apply bind_Ok in Hv. destruct Hv as (hs' & Hhs & Hv).
  inversion Hv; subst headers shstrndx hs'; clear Hv.
  unfold findSection. rewrite Hshoff. simpl. rewrite Hshnum. simpl.
  erewrite (forLoop_firstHit _ _ (candidate ndx sectionType)
              (fun idx h => selected T os s (mapping s + shoff) idx h)); [| |exact Hhs].
  - simpl. destruct (firstHit _ 0 hs) as [[i h]|]; reflexivity.
  - intros idx h Hh. unfold shdrAt in Hh. read_view Hh.
    rewrite Hndx. simpl. unfold candidate, selected, corrupt. simpl.
    destruct (idx =? ndx); simpl; [reflexivity|].
    rewrite Hx. simpl. destruct (x =? sectionType); simpl; [|reflexivity].
    unfold andAlso. rewrite Hx2, Hx1, Hx0. simpl.
    destruct (0 <? x2); simpl.
    + destruct (negb (x1 mod x2 =? 0)); simpl; [reflexivity|].
      destruct (expandMapping os s (wrap T (x0 + x1))) as [s' []]; reflexivity.
    + destruct (expandMapping os s (wrap T (x0 + x1))) as [s' []]; reflexivity.
Qed.

Lemma forLoop_Some_inv {C} (P : C -> Prop) (body : Z -> Result (option C)) :
  (forall idx c, body idx = Ok (Some c) -> P c) ->
  forall n idx c, forLoop n idx body = Ok (Some c) -> P c.
Proof.
  intros Hbody. induction n as [|n IH]; intros idx c H; simpl in H; [discriminate|].
  apply bind_Ok in H. destruct H as ([c'|] & Hb & H).
  - inversion H; subst. eauto.
  - eauto.
Qed.

Lemma expandMapping_tables (s s' : StaticBinaryELF) (size : Z) (ok : bool) :
  expandMapping os s size = (s', ok) ->
  symbolTable s' = symbolTable s /\ stringTable s' = stringTable s
  /\ fileSize s' = fileSize s.
Proof.
  unfold expandMapping. intros H.
  destruct ((mapping s =? 0) || (fileSize s <? size)).
  - inversion H; subst; auto.
  - destruct (mapLength s <? size).
    + destruct (os_mremap os (mapping s) (mapLength s) size);
        inversion H; subst; auto.
    + inversion H; subst; auto.
Qed.



(** ** expandMapping *)

(** A grow never maps past the end of the file: a request past it fails
    and changes nothing, a request that succeeds leaves a mapping that
    covers the request and, when it has grown, ends within the file. *)
Lemma expandMapping_within_file (s s' : StaticBinaryELF) (size : Z) (ok : bool) :
  expandMapping os s size = (s', ok) ->
  (fileSize s < size -> ok = false /\ s' = s)
  /\ (ok = true -> size <= mapLength s' /\ mapLength s <= mapLength s'
                   /\ (mapLength s <= fileSize s -> mapLength s' <= fileSize s'))
  /\ (ok = false -> s' = s).
Proof.
  unfold expandMapping. intros H.
  destruct (mapping s =? 0) eqn:Hm; simpl in H.
  - inversion H; subst. repeat split; auto; discriminate.
  - destruct (fileSize s <? size) eqn:Hf.
    + inversion H; subst. repeat split; auto; discriminate.
    + apply Z.ltb_ge in Hf. destruct (mapLength s <? size) eqn:Hl.
      * apply Z.ltb_lt in Hl.
        destruct (os_mremap os (mapping s) (mapLength s) size) as [map|];
          inversion H; subst; simpl; repeat split; auto; try lia; try discriminate.
      * apply Z.ltb_ge in Hl. inversion H; subst.
        repeat split; auto; try lia; discriminate.
Qed.

(** What a grow recomputes when mremap moves the mapping: [mapping] and
    [elfHeader] take the new address, [symbolTable] and [stringTable] keep
    the address they had. *)
Lemma expandMapping_relocated (s : StaticBinaryELF) (size map : Z) :
  mapping s <> 0 -> mapLength s < size <= fileSize s ->
  os_mremap os (mapping s) (mapLength s) size = Some map ->
  expandMapping os s size
  = (mkStaticBinaryELF size (fileSize s) map map (symbolTable s) (stringTable s), true).
Proof.
  intros Hm [Hl Hf] Hr. unfold expandMapping.
  apply Z.eqb_neq in Hm. rewrite Hm. simpl.
  replace (fileSize s <? size) with false by (symmetry; apply Z.ltb_ge; lia).
  replace (mapLength s <? size) with true by (symmetry; apply Z.ltb_lt; lia).
  now rewrite Hr.
Qed.



(** The defect behind C2, in general: when the section findSection selects
    makes the mapping grow and mremap moves it to [map], the object has the
    new address in [mapping] and [elfHeader], and the header returned is the
    one at the old address. *)
Lemma findSection_returns_old_address
    (s : StaticBinaryELF) (sectionType headers shstrndx : Z) (hs : list Shdr)
    (k : nat) (h : Shdr) (map : Z) :
  sectionHeaders T os s = Ok (headers, shstrndx, hs) ->
  firstHit (candidate shstrndx sectionType) 0 hs = Some (Z.of_nat k, h) ->
  corrupt h = false ->
  mapping s <> 0 ->
  mapLength s < wrap T (sec_offset h + sec_size h) <= fileSize s ->
  os_mremap os (mapping s) (mapLength s) (wrap T (sec_offset h + sec_size h)) = Some map ->
  exists shoff,
    headers = mapping s + shoff
    /\ findSection T os s sectionType
       = Ok (mkStaticBinaryELF (wrap T (sec_offset h + sec_size h)) (fileSize s)
               map map (symbolTable s) (stringTable s),
             mapping s + shoff + Z.of_nat k * sizeof_Shdr T).
Proof.
  intros Hv Hf Hc Hm Hsz Hr.
  rewrite (findSection_firstHit s sectionType headers shstrndx hs Hv), Hf.
  unfold selected. rewrite Hc, (expandMapping_relocated s _ map Hm Hsz Hr).
  unfold sectionHeaders in Hv.
  apply bind_Ok in Hv. destruct Hv as (shoff & _ & Hv).
  apply bind_Ok in Hv. destruct Hv as (shnum & _ & Hv).
  apply bind_Ok in Hv. destruct Hv as (ndx & _ & Hv).
  apply bind_Ok in Hv. destruct Hv as (hs' & _ & Hv).
  inversion Hv; subst. exists shoff. split; reflexivity.
Qed.

End ParserFacts.

(** ** The parser run on the sample images *)

(** C2.  The code breaks the second half of the claim.  On an executable
    whose symbol table lies after its section headers, with an mremap that
    moves the mapping at each grow, findSection returns the address of the
    section header in the mapping it grew from: construction ends with the
    mapping at 0x40000 and [symbolTable] = 0x20080, [stringTable] = 0x300c0,
    both outside the mapping, and findSymbol reads through the stale
    pointer.  With an mremap that grows in place the same file parses and
    findSymbol finds f. *)
Theorem relocating_grow_leaves_section_pointers_stale :
  construct Elf64 (growMoving headersFirstImage)
  = Ok (mkStaticBinaryELF 288 288 262144 262144 131200 196800)
  /\ mapped (mkStaticBinaryELF 288 288 262144 262144 131200 196800)
       131200 (sizeof_Shdr Elf64) = false
  /\ mapped (mkStaticBinaryELF 288 288 262144 262144 131200 196800)
       196800 (sizeof_Shdr Elf64) = false
  /\ findSymbol Elf64 (growMoving headersFirstImage)
       (mkStaticBinaryELF 288 288 262144 262144 131200 196800) 4198416 = Fault
  /\ construct Elf64 (growInPlace headersFirstImage)
     = Ok (mkStaticBinaryELF 288 288 65536 65536 65664 65728)
  /\ findSymbol Elf64 (growInPlace headersFirstImage)
       (mkStaticBinaryELF 288 288 65536 65536 65664 65728) 4198416 = Ok 65792.
Proof. repeat split; vm_compute; reflexivity. Qed.



Lemma rejected_executable_disables_parser_witness :
  ehdrAt Elf64 (growInPlace dynamicImage)
    (mkStaticBinaryELF 64 240 65536 65536 0 0) 65536
  = Ok (mkEhdr 127 69 76 70 2 2 1 64)
  /\ mapProgramHeaders Elf64 (growInPlace dynamicImage)
       (mkStaticBinaryELF 64 240 65536 65536 0 0)
     = Ok (mkStaticBinaryELF 176 240 65536 65536 0 0, true)
  /\ programHeaders Elf64 (growInPlace dynamicImage)
       (mkStaticBinaryELF 176 240 65536 65536 0 0)
     = Ok [mkPhdr PT_LOAD 4194304 8192; mkPhdr PT_INTERP 4194816 28]
  /\ exists s,
      construct Elf64 (growInPlace dynamicImage) = Ok s
      /\ mapping s = 0 /\ elfHeader s = 0 /\ symbolTable s = 0 /\ stringTable s = 0
      /\ forall addr,
          getSectionLoadAddress Elf64 (growInPlace dynamicImage) s addr = Ok 0
          /\ findSymbol Elf64 (growInPlace dynamicImage) s addr = Ok 0.
Proof.
  split; [vm_compute; reflexivity|].
  split; [vm_compute; reflexivity|].
  split; [vm_compute; reflexivity|].
  apply (rejected_executable_disables_parser Elf64 (growInPlace dynamicImage)
           dynamicImage 65536 (mkEhdr 127 69 76 70 2 2 1 64)).
  - reflexivity.
  - reflexivity.
  - reflexivity.
  - vm_compute; reflexivity.
  - right. exists (mkStaticBinaryELF 176 240 65536 65536 0 0).
    exists [mkPhdr PT_LOAD 4194304 8192; mkPhdr PT_INTERP 4194816 28].
    split; [vm_compute; reflexivity|]. split; [vm_compute; reflexivity|].
    apply Exists_cons_tl. apply Exists_cons_hd. reflexivity.
Defined.

(** The first case of C4 at work: the parser built for ILP32 rejects the
    class of an ELF64 executable. *)
Example elf64_image_rejected_by_elf32_parser :
  construct Elf32 (growInPlace staticImage) = Ok (mkStaticBinaryELF 0 368 0 0 0 0).
Proof. vm_compute; reflexivity. Qed.

Lemma getSectionLoadAddress_load_segment_witness :
  construct Elf64 (growInPlace staticImage)
  = Ok (mkStaticBinaryELF 368 368 65536 65536 65776 65840)
  /\ programHeaders Elf64 (growInPlace staticImage)
       (mkStaticBinaryELF 368 368 65536 65536 65776 65840)
     = Ok [mkPhdr PT_LOAD 4194304 8192]
  /\ getSectionLoadAddress Elf64 (growInPlace staticImage)
       (mkStaticBinaryELF 368 368 65536 65536 65776 65840) 4202496 = Ok 4194304.
Proof.
  split; [vm_compute; reflexivity|].
  assert (Hv : programHeaders Elf64 (growInPlace staticImage)
                 (mkStaticBinaryELF 368 368 65536 65536 65776 65840)
               = Ok [mkPhdr PT_LOAD 4194304 8192]) by (vm_compute; reflexivity).
  split; [exact Hv|].
  destruct (getSectionLoadAddress_load_segment Elf64 (growInPlace staticImage)
              (mkStaticBinaryELF 368 368 65536 65536 65776 65840) 4202496
              [mkPhdr PT_LOAD 4194304 8192] ltac:(discriminate) Hv)
    as [[(k & h & Hn & _ & _ & _ & Hr) | (Hnone & _)] _].
  - destruct k as [|[|k]]; simpl in Hn; inversion Hn; subst. exact Hr.
  - exfalso. apply (Hnone (mkPhdr PT_LOAD 4194304 8192)); [left; reflexivity|].
    split; [reflexivity|]. vm_compute. split; discriminate.
Defined.

Lemma findSymbol_first_function_symbol_witness :
  symbols Elf64 (growInPlace staticImage)
    (mkStaticBinaryELF 368 368 65536 65536 65776 65840)
  = Ok (65656, [mkSym 0 0 0; mkSym 18 4198400 32])
  /\ findSymbol Elf64 (growInPlace staticImage)
       (mkStaticBinaryELF 368 368 65536 65536 65776 65840) 4198431 = Ok 65680.
Proof.
  assert (Hv : symbols Elf64 (growInPlace staticImage)
                 (mkStaticBinaryELF 368 368 65536 65536 65776 65840)
               = Ok (65656, [mkSym 0 0 0; mkSym 18 4198400 32]))
    by (vm_compute; reflexivity).
  split; [exact Hv|].
  destruct (findSymbol_first_function_symbol Elf64 (growInPlace staticImage)
              (mkStaticBinaryELF 368 368 65536 65536 65776 65840) 4198431 65656
              [mkSym 0 0 0; mkSym 18 4198400 32] ltac:(discriminate) Hv)
    as [[(k & y & Hn & Hty & _ & _ & Hr) | (Hnone & _)] _].
  - destruct k as [|[|[|k]]]; simpl in Hn; inversion Hn; subst.
    + vm_compute in Hty. discriminate.
    + exact Hr.
  - exfalso. apply (Hnone (mkSym 18 4198400 32)); [right; left; reflexivity|].
    split; [reflexivity|]. vm_compute. split; [discriminate | reflexivity].
Defined.

(** The boundary of C6 and C7 on the sample executable: the address
    st_value + st_size of f finds no symbol, the address
    p_vaddr + p_memsz of the segment still finds the segment. *)
Example boundary_addresses :
  findSymbol Elf64 (growInPlace staticImage)
    (mkStaticBinaryELF 368 368 65536 65536 65776 65840) 4198432 = Ok 0
  /\ getSectionLoadAddress Elf64 (growInPlace staticImage)
       (mkStaticBinaryELF 368 368 65536 65536 65776 65840) 4202496 = Ok 4194304
  /\ getSectionLoadAddress Elf64 (growInPlace staticImage)
       (mkStaticBinaryELF 368 368 65536 65536 65776 65840) 4202497 = Ok 0.
Proof. repeat split; vm_compute; reflexivity. Qed.

End StaticELFFacts.

(* ===================================================================== *)
(** * Further properties of the registries *)
(* ===================================================================== *)

Lemma delivered_app (r : Registry) (t1 t2 : list Callback) :
  delivered r (t1 ++ t2) = delivered r t1 ++ delivered r t2.
Proof.
  induction t1 as [|c t1 IH]; [reflexivity|].
  destruct c, r; simpl; now rewrite IH.
Qed.

Lemma delivered_same (r : Registry) (v : list SectionInfo) :
  delivered r (map (callbackOf r) v) = v.
Proof.
  induction v as [|[d n] v IH]; [reflexivity|].
  destruct r; simpl; now rewrite IH.
Qed.

Lemma delivered_other (r r' : Registry) (v : list SectionInfo) :
  r' <> r -> delivered r (map (callbackOf r') v) = [].
Proof.
  intros Hne. induction v as [|b v IH]; [reflexivity|].
  destruct r, r'; simpl; congruence.
Qed.

Lemma Registry_eqb_refl (r : Registry) : Registry_eqb r r = true.
Proof. now destruct r. Qed.

Lemma Registry_eqb_neq (a b : Registry) : a <> b -> Registry_eqb a b = false.
Proof. destruct a, b; simpl; congruence. Qed.

Lemma trace_cons {G} (exec : Entry -> Run G unit) (e : Entry) (es : list Entry)
    (g g1 : G) :
  final (exec e g) = Some g1 ->
  trace (execAll exec (e :: es) g) = trace (exec e g) ++ trace (execAll exec es g1)
  /\ snd (execAll exec (e :: es) g) = snd (execAll exec es g1).
Proof.
  intros H. rewrite execAll_cons.
  destruct (exec e g) as [t [[[] g']|]]; [|discriminate].
  inversion H; subst. split; reflexivity.
Qed.

Lemma trace_abort {G} (exec : Entry -> Run G unit) (e : Entry) (es : list Entry)
    (g : G) :
  final (exec e g) = None ->
  execAll exec (e :: es) g = (trace (exec e g), None).
Proof.
  intros H. rewrite execAll_cons.
  destruct (exec e g) as [t [[[] g']|]]; [discriminate|reflexivity].
Qed.

Lemma pending_phase (r : Registry) (g : ImageInspectionELF.Globals) (p : Phase) :
  phaseOf r g = Some p ->
  pending r g = match p with Buffering v => v | _ => [] end.
Proof. unfold pending. now intros ->. Qed.

(** What one entry point adds to the blocks delivered and held back. *)
Lemma exec_account (r : Registry) (e : Entry) (g g' : ImageInspectionELF.Globals) :
  consistent g ->
  final (ImageInspectionELF.exec e g) = Some g' ->
  delivered r (trace (ImageInspectionELF.exec e g)) ++ pending r g'
  = pending r g ++ filter nonEmpty (addedTo r [e]).
Proof.
  intros Hc Hf. destruct e as [r0 b | r0];
    (destruct (phaseOf r0 g) as [p|] eqn:Hp; [|now destruct (Hc r0)]).
  - destruct (exec_Add_phase r0 b g p Hp) as (g1 & He & Hp1 & Hother & _).
    rewrite He in Hf |- *. inversion Hf; subst g1; clear Hf.
    unfold trace. simpl fst. simpl addedTo.
    destruct (Registry_eq_dec r r0) as [->|Hne].
    + rewrite Registry_eqb_refl, (pending_phase _ _ _ Hp), (pending_phase _ _ _ Hp1).
      rewrite <- kept_filter.
      destruct p; simpl; rewrite ?delivered_same, ?app_nil_r; reflexivity.
    + rewrite (Registry_eqb_neq r0 r) by congruence.
      unfold pending. rewrite (Hother r Hne). simpl. rewrite app_nil_r.
      destruct p; simpl; try reflexivity.
      rewrite delivered_other by congruence. reflexivity.
  - pose proof (exec_Initialize_phase r0 g p Hp) as H. simpl addedTo. simpl filter.
    rewrite app_nil_r. destruct p as [|v|].
    + rewrite H in Hf. discriminate.
    + destruct H as (g1 & He & Hp1 & Hother).
      rewrite He in Hf |- *. inversion Hf; subst g1; clear Hf.
      unfold trace. simpl fst. destruct (Registry_eq_dec r r0) as [->|Hne].
      * rewrite delivered_same, (pending_phase _ _ _ Hp), (pending_phase _ _ _ Hp1).
        now rewrite app_nil_r.
      * rewrite delivered_other by congruence. unfold pending.
        now rewrite (Hother r Hne).
    + rewrite H in Hf |- *. inversion Hf; subst g'. reflexivity.
Qed.

Lemma addedTo_cons (r : Registry) (e : Entry) (es : list Entry) :
  addedTo r (e :: es) = addedTo r [e] ++ addedTo r es.
Proof.
  destruct e as [r0 b|r0]; simpl; [|reflexivity].
  now destruct (Registry_eqb r0 r).
Qed.

Lemma run_account (r : Registry) (es : list Entry) :
  forall g g', consistent g ->
  final (ImageInspectionELF.run es g) = Some g' ->
  delivered r (trace (ImageInspectionELF.run es g)) ++ pending r g'
  = pending r g ++ filter nonEmpty (addedTo r es).
Proof.
  induction es as [|e es IH]; intros g g' Hc Hf.
  - inversion Hf; subst. simpl. now rewrite app_nil_r.
  - pose proof Hf as Hf'. apply final_cons in Hf'. destruct Hf' as (g1 & H1 & H2).
    destruct (exec_step e g g1 Hc H1) as (Hc1 & _ & _).
    unfold ImageInspectionELF.run in *.
    destruct (trace_cons ImageInspectionELF.exec e es g g1 H1) as (Ht & _).
    rewrite Ht, delivered_app, <- app_assoc, (IH g1 g' Hc1 H2), app_assoc.
    rewrite (exec_account r e g g1 Hc H1), (addedTo_cons r e es), filter_app, app_assoc.
    reflexivity.
Qed.

Lemma activates_activated (r : Registry) (es : list Entry) :
  forall g g', consistent g ->
  final (ImageInspectionELF.run es g) = Some g' ->
  activates r es = true \/ phaseOf r g = Some Activated ->
  phaseOf r g' = Some Activated.
Proof.
  induction es as [|e es IH]; intros g g' Hc Hf Hor.
  - inversion Hf; subst. destruct Hor as [H|H]; [discriminate|assumption].
  - apply final_cons in Hf. destruct Hf as (g1 & H1 & H2).
    destruct (exec_step e g g1 Hc H1) as (Hc1 & Hkeep & Hinit).
    apply (IH g1 g' Hc1 H2).
    destruct Hor as [H|H]; [|right; now apply Hkeep].
    destruct e as [r0 b|r0]; simpl in H; [now left|].
    apply orb_true_iff in H. destruct H as [H|H]; [|now left].
    apply Registry_eqb_eq in H. subst r0. right. now apply Hinit.
Qed.

Lemma not_activated_silent (r : Registry) (es : list Entry) :
  forall g, consistent g ->
  phaseOf r g <> Some Activated ->
  activates r es = false ->
  delivered r (trace (ImageInspectionELF.run es g)) = [].
Proof.
  induction es as [|e es IH]; intros g Hc Hna Hact; [reflexivity|].
  unfold ImageInspectionELF.run in *.
  assert (Hstep : delivered r (trace (ImageInspectionELF.exec e g)) = []
                  /\ forall g1, final (ImageInspectionELF.exec e g) = Some g1 ->
                                phaseOf r g1 <> Some Activated).
  { destruct e as [r0 b | r0];
      (destruct (phaseOf r0 g) as [p|] eqn:Hp; [|now destruct (Hc r0)]).
    - destruct (exec_Add_phase r0 b g p Hp) as (g1 & He & Hp1 & Hother & _).
      rewrite He. unfold trace. simpl fst. split.
      + destruct (Registry_eq_dec r r0) as [->|Hne].
        * destruct p; try reflexivity. congruence.
        * destruct p; try reflexivity. simpl. apply delivered_other. congruence.
      + intros g2 Hf. inversion Hf; subst g2.
        destruct (Registry_eq_dec r r0) as [->|Hne].
        * rewrite Hp1. destruct p; simpl; try discriminate. congruence.
        * now rewrite (Hother r Hne).
    - simpl in Hact. apply orb_false_iff in Hact. destruct Hact as (Hne & _).
      assert (Hne' : r0 <> r) by (intros ->; now rewrite Registry_eqb_refl in Hne).
      pose proof (exec_Initialize_phase r0 g p Hp) as H. destruct p as [|v|].
      + rewrite H. split; [reflexivity | discriminate].
      + destruct H as (g1 & He & Hp1 & Hother). rewrite He. unfold trace. simpl fst.
        split; [now apply delivered_other|].
        intros g2 Hf. inversion Hf; subst g2. rewrite (Hother r); congruence.
      + rewrite H. split; [reflexivity|].
        intros g2 Hf. inversion Hf; subst g2. assumption. }
  destruct Hstep as (Hd & Hnext).
  destruct (final (ImageInspectionELF.exec e g)) as [g1|] eqn:Hf.
  - destruct (trace_cons ImageInspectionELF.exec e es g g1 Hf) as (Ht & _).
    rewrite Ht, delivered_app, Hd. simpl.
    apply IH.
    + eapply exec_step; eauto.
    + now apply Hnext.
    + destruct e; simpl in Hact; [assumption|].
      apply orb_false_iff in Hact. tauto.
  - rewrite (trace_abort ImageInspectionELF.exec e es g Hf). exact Hd.
Qed.

(** X1.  In the dynamic-ELF registries, for any sequence of contribute and
    activate calls on the two registries that runs to its end: the blocks
    the callback of [r] received, followed by the blocks [r] still holds
    back, are the nonzero-size blocks contributed to [r], in order (none
    lost, none twice).  When the sequence activates [r] nothing is held
    back; when it does not, the callback of [r] received nothing. *)
Theorem blocks_delivered_or_pending
    (r : Registry) (es : list Entry) (g : ImageInspectionELF.Globals) :
  final (ImageInspectionELF.run es ImageInspectionELF.initial) = Some g ->
  delivered r (trace (ImageInspectionELF.run es ImageInspectionELF.initial))
    ++ pending r g
  = filter nonEmpty (addedTo r es)
  /\ (activates r es = true ->
      pending r g = []
      /\ delivered r (trace (ImageInspectionELF.run es ImageInspectionELF.initial))
         = filter nonEmpty (addedTo r es))
  /\ (activates r es = false ->
      delivered r (trace (ImageInspectionELF.run es ImageInspectionELF.initial)) = []
      /\ pending r g = filter nonEmpty (addedTo r es)).
Proof.
  intros Hf.
  pose proof (run_account r es _ g initial_consistent Hf) as Hacc.
  assert (H0 : pending r ImageInspectionELF.initial = []) by (now destruct r).
  rewrite H0 in Hacc. simpl in Hacc. split; [exact Hacc|]. split.
  - intros Hact.
    pose proof (activates_activated r es _ g initial_consistent Hf (or_introl Hact)) as Hp.
    rewrite (pending_phase _ _ _ Hp) in *. rewrite app_nil_r in Hacc. auto.
  - intros Hact.
    assert (Hd : delivered r (trace (ImageInspectionELF.run es ImageInspectionELF.initial))
                 = []).
    { apply not_activated_silent; [apply initial_consistent | | assumption].
      destruct r; discriminate. }
    rewrite Hd in *. auto.
Qed.

Lemma blocks_delivered_or_pending_witness :
  final (ImageInspectionELF.run
           [Add ProtocolConformance (mkSectionInfo 4096 16);
            Add TypeMetadata (mkSectionInfo 8192 8);
            Add ProtocolConformance (mkSectionInfo 12288 0);
            Initialize ProtocolConformance;
            Add ProtocolConformance (mkSectionInfo 16384 32)]
           ImageInspectionELF.initial)
  = Some (ImageInspectionELF.mkGlobals (Some ImageInspectionELF.NewMutex) None
            (Some ImageInspectionELF.NewMutex) (Some [mkSectionInfo 8192 8])
            true true)
  /\ delivered ProtocolConformance
       (trace (ImageInspectionELF.run
                 [Add ProtocolConformance (mkSectionInfo 4096 16);
                  Add TypeMetadata (mkSectionInfo 8192 8);
                  Add ProtocolConformance (mkSectionInfo 12288 0);
                  Initialize ProtocolConformance;
                  Add ProtocolConformance (mkSectionInfo 16384 32)]
                 ImageInspectionELF.initial))
     = [mkSectionInfo 4096 16; mkSectionInfo 16384 32].
Proof.
  split; [reflexivity|].
  apply (proj2 (proj1 (proj2 (blocks_delivered_or_pending ProtocolConformance
           [Add ProtocolConformance (mkSectionInfo 4096 16);
            Add TypeMetadata (mkSectionInfo 8192 8);
            Add ProtocolConformance (mkSectionInfo 12288 0);
            Initialize ProtocolConformance;
            Add ProtocolConformance (mkSectionInfo 16384 32)]
           _ eq_refl)) eq_refl)).
Defined.

Lemma onceOf_phase (r : Registry) (g : ImageInspectionELF.Globals) (p : Phase) :
  phaseOf r g = Some p ->
  ImageInspectionELF.onceOf r g = match p with Untouched => false | _ => true end.
Proof.
  unfold phaseOf.
  destruct (ImageInspectionELF.onceOf r g), (ImageInspectionELF.lockOf r g),
    (ImageInspectionELF.bufferOf r g); intros H; inversion H; reflexivity.
Qed.

Lemma onceOf_same_phase (r : Registry) (g g' : ImageInspectionELF.Globals) :
  consistent g -> phaseOf r g' = phaseOf r g ->
  ImageInspectionELF.onceOf r g' = ImageInspectionELF.onceOf r g.
Proof.
  intros Hc H. destruct (phaseOf r g) as [p|] eqn:Hp; [|now destruct (Hc r)].
  now rewrite (onceOf_phase r g p Hp), (onceOf_phase r g' p H).
Qed.

Lemma run_completed (es : list Entry) :
  forall g, consistent g ->
  completed (ImageInspectionELF.run es g)
  = contributesFirst (ImageInspectionELF.onceOf ProtocolConformance g)
      (ImageInspectionELF.onceOf TypeMetadata g) es.
Proof.
  induction es as [|e es IH]; intros g Hc; [reflexivity|].
  unfold ImageInspectionELF.run in *.
  destruct e as [r0 b | r0];
    (destruct (phaseOf r0 g) as [p|] eqn:Hp; [|now destruct (Hc r0)]).
  - destruct (exec_Add_phase r0 b g p Hp) as (g1 & He & Hp1 & Hother & _).
    assert (Hf : final (ImageInspectionELF.exec (Add r0 b) g) = Some g1)
      by (now rewrite He).
    destruct (trace_cons ImageInspectionELF.exec _ es g g1 Hf) as (_ & Hs).
    unfold completed in *. rewrite Hs.
    destruct (exec_step _ g g1 Hc Hf) as (Hc1 & _ & _).
    rewrite (IH g1 Hc1).
    assert (Ho : ImageInspectionELF.onceOf r0 g1 = true).
    { rewrite (onceOf_phase r0 g1 _ Hp1). now destruct p. }
    destruct r0; cbn [contributesFirst]; rewrite Ho.
    + now rewrite (onceOf_same_phase TypeMetadata g g1 Hc
                     (Hother TypeMetadata ltac:(discriminate))).
    + now rewrite (onceOf_same_phase ProtocolConformance g g1 Hc
                     (Hother ProtocolConformance ltac:(discriminate))).
  - pose proof (exec_Initialize_phase r0 g p Hp) as H.
    pose proof (onceOf_phase r0 g p Hp) as Ho. destruct p as [|v|].
    + assert (Hf : final (ImageInspectionELF.exec (Initialize r0) g) = None)
        by (now rewrite H).
      rewrite (trace_abort ImageInspectionELF.exec _ es g Hf).
      unfold completed. destruct r0; cbn [contributesFirst]; now rewrite Ho.
    + destruct H as (g1 & He & Hp1 & Hother).
      assert (Hf : final (ImageInspectionELF.exec (Initialize r0) g) = Some g1)
        by (now rewrite He).
      destruct (trace_cons ImageInspectionELF.exec _ es g g1 Hf) as (_ & Hs).
      unfold completed in *. rewrite Hs.
      destruct (exec_step _ g g1 Hc Hf) as (Hc1 & _ & _).
      rewrite (IH g1 Hc1).
      assert (Ho1 : ImageInspectionELF.onceOf r0 g1 = true)
        by (now rewrite (onceOf_phase r0 g1 _ Hp1)).
      destruct r0; cbn [contributesFirst]; rewrite Ho; cbn [andb].
      * now rewrite Ho1, (onceOf_same_phase TypeMetadata g g1 Hc
                            (Hother TypeMetadata ltac:(discriminate))).
      * now rewrite Ho1, (onceOf_same_phase ProtocolConformance g g1 Hc
                            (Hother ProtocolConformance ltac:(discriminate))).
    + assert (Hf : final (ImageInspectionELF.exec (Initialize r0) g) = Some g)
        by (now rewrite H).
      destruct (trace_cons ImageInspectionELF.exec _ es g g Hf) as (_ & Hs).
      unfold completed in *. rewrite Hs. rewrite (IH g Hc).
      destruct r0; cbn [contributesFirst]; now rewrite Ho.
Qed.

(** X2.  In the dynamic-ELF registries, a sequence of contribute and
    activate calls runs to its end exactly when each activate comes after a
    contribute to the same registry (of any size, zero included: it is the
    contribute that allocates the lock); otherwise the first activate of a
    registry that received no contribute stops at the assertion on the
    lock. *)
Theorem run_completes_iff_contribute_first (es : list Entry) :
  completed (ImageInspectionELF.run es ImageInspectionELF.initial)
  = contributesFirst false false es.
Proof. exact (run_completed es _ initial_consistent). Qed.

(** C8.  In the dynamic-ELF registries, take any sequence of contribute and
    activate calls that contains an activate of registry [r] and in which
    each activate comes after a contribute to the same registry (a condition
    on the calls alone).  Run from the start of the process, the sequence
    goes through to its end, and in the statics [g] it leaves: the buffer
    pointer of [r] is null, whatever was called after the activate; a
    further contribute of a block [b] to [r] calls the drain callback of [r]
    with [b] at once when [b] has a nonzero size (and makes no call
    otherwise) and leaves the statics as they are, so the buffer is not
    created again; and the sequence followed by that contribute makes the
    calls of the sequence, then this one call, and ends in [g]. *)
Theorem contribute_after_activate_forwards_immediately
    (r : Registry) (es1 es2 : list Entry) (b : SectionInfo) :
  contributesFirst false false (es1 ++ Initialize r :: es2) = true ->
  exists g : ImageInspectionELF.Globals,
    final (ImageInspectionELF.run (es1 ++ Initialize r :: es2)
             ImageInspectionELF.initial) = Some g
    /\ ImageInspectionELF.bufferOf r g = None
    /\ ImageInspectionELF.exec (Add r b) g
       = ((if (0 <? size b)%N then [callbackOf r b] else []), Some (tt, g))
    /\ ImageInspectionELF.run ((es1 ++ Initialize r :: es2) ++ [Add r b])
         ImageInspectionELF.initial
       = (trace (ImageInspectionELF.run (es1 ++ Initialize r :: es2)
                   ImageInspectionELF.initial)
            ++ (if (0 <? size b)%N then [callbackOf r b] else []),
          Some (tt, g)).
Proof.
  intros Hord.
  pose proof (run_completed (es1 ++ Initialize r :: es2) _ initial_consistent)
    as Hc.
  change (ImageInspectionELF.onceOf ProtocolConformance ImageInspectionELF.initial)
    with false in Hc.
  change (ImageInspectionELF.onceOf TypeMetadata ImageInspectionELF.initial)
    with false in Hc.
  rewrite Hord in Hc. unfold completed in Hc.
  destruct (ImageInspectionELF.run (es1 ++ Initialize r :: es2)
              ImageInspectionELF.initial) as [t [[[] g]|]] eqn:Hrun;
    [clear Hc|discriminate Hc].
  assert (Hf : final (ImageInspectionELF.run (es1 ++ Initialize r :: es2)
                        ImageInspectionELF.initial) = Some g)
    by (now rewrite Hrun).
  pose proof (activated_after r es1 es2 g Hf) as Ha.
  assert (He : ImageInspectionELF.exec (Add r b) g
               = ((if (0 <? size b)%N then [callbackOf r b] else []),
                  Some (tt, g))).
  { destruct (exec_Add_phase r b g _ Ha) as (g' & He & _ & _ & Hsame).
    rewrite (Hsame eq_refl) in He. rewrite He. unfold forwarded, kept, nonEmpty.
    now destruct (0 <? size b)%N. }
  exists g. split; [reflexivity|]. split; [|split; [exact He|]].
  - unfold phaseOf in Ha.
    destruct (ImageInspectionELF.onceOf r g), (ImageInspectionELF.lockOf r g),
      (ImageInspectionELF.bufferOf r g); congruence.
  - unfold ImageInspectionELF.run in *. rewrite execAll_app, Hrun, execAll_one, He.
    reflexivity.
Qed.

Lemma contribute_after_activate_forwards_immediately_witness :
  (contributesFirst false false
     ([Add TypeMetadata (mkSectionInfo 4096 16);
       Add ProtocolConformance (mkSectionInfo 16384 0)]
        ++ Initialize ProtocolConformance
        :: [Add ProtocolConformance (mkSectionInfo 8192 0);
            Initialize TypeMetadata]) = true
   /\ exists g : ImageInspectionELF.Globals,
        final (ImageInspectionELF.run
                 ([Add TypeMetadata (mkSectionInfo 4096 16);
                   Add ProtocolConformance (mkSectionInfo 16384 0)]
                    ++ Initialize ProtocolConformance
                    :: [Add ProtocolConformance (mkSectionInfo 8192 0);
                        Initialize TypeMetadata])
                 ImageInspectionELF.initial) = Some g
        /\ ImageInspectionELF.bufferOf ProtocolConformance g = None
        /\ ImageInspectionELF.exec
             (Add ProtocolConformance (mkSectionInfo 12288 24)) g
           = ([addImageProtocolConformanceBlockCallback 12288 24], Some (tt, g))
        /\ ImageInspectionELF.run
             (([Add TypeMetadata (mkSectionInfo 4096 16);
                Add ProtocolConformance (mkSectionInfo 16384 0)]
                 ++ Initialize ProtocolConformance
                 :: [Add ProtocolConformance (mkSectionInfo 8192 0);
                     Initialize TypeMetadata])
                ++ [Add ProtocolConformance (mkSectionInfo 12288 24)])
             ImageInspectionELF.initial
           = ([addImageTypeMetadataRecordBlockCallback 4096 16;
               addImageProtocolConformanceBlockCallback 12288 24],
              Some (tt, g)))
  /\ (contributesFirst false false
        ([Add TypeMetadata (mkSectionInfo 4096 16)]
           ++ Initialize TypeMetadata
           :: [Add TypeMetadata (mkSectionInfo 8192 0)]) = true
      /\ exists g : ImageInspectionELF.Globals,
           final (ImageInspectionELF.run
                    ([Add TypeMetadata (mkSectionInfo 4096 16)]
                       ++ Initialize TypeMetadata
                       :: [Add TypeMetadata (mkSectionInfo 8192 0)])
                    ImageInspectionELF.initial) = Some g
           /\ ImageInspectionELF.bufferOf TypeMetadata g = None
           /\ ImageInspectionELF.exec
                (Add TypeMetadata (mkSectionInfo 12288 24)) g
              = ([addImageTypeMetadataRecordBlockCallback 12288 24],
                 Some (tt, g))
           /\ ImageInspectionELF.run
                (([Add TypeMetadata (mkSectionInfo 4096 16)]
                    ++ Initialize TypeMetadata
                    :: [Add TypeMetadata (mkSectionInfo 8192 0)])
                   ++ [Add TypeMetadata (mkSectionInfo 12288 24)])
                ImageInspectionELF.initial
              = ([addImageTypeMetadataRecordBlockCallback 4096 16;
                  addImageTypeMetadataRecordBlockCallback 12288 24],
                 Some (tt, g))).
Proof.
  split; (split; [reflexivity|]).
  - apply (contribute_after_activate_forwards_immediately ProtocolConformance
             [Add TypeMetadata (mkSectionInfo 4096 16);
              Add ProtocolConformance (mkSectionInfo 16384 0)]
             [Add ProtocolConformance (mkSectionInfo 8192 0);
              Initialize TypeMetadata]
             (mkSectionInfo 12288 24)).
    reflexivity.
  - apply (contribute_after_activate_forwards_immediately TypeMetadata
             [Add TypeMetadata (mkSectionInfo 4096 16)]
             [Add TypeMetadata (mkSectionInfo 8192 0)]
             (mkSectionInfo 12288 24)).
    reflexivity.
Defined.

Lemma static_exec_stored (e : Entry) (g : ImageInspectionStatic.Globals) :
  exists g',
    ImageInspectionStatic.exec e g
    = (match e with
       | Add _ _ => []
       | Initialize r => [callbackOf r (ImageInspectionStatic.stored r g)]
       end, Some (tt, g'))
    /\ forall r, ImageInspectionStatic.stored r g'
                 = last (addedTo r [e]) (ImageInspectionStatic.stored r g).
Proof.
  destruct e as [r0 b|r0].
  - destruct (static_exec_Add r0 b g) as (g' & He & Hs & Hother).
    exists g'. split; [exact He|]. intros r. simpl.
    destruct (Registry_eq_dec r r0) as [->|Hne].
    + now rewrite Registry_eqb_refl.
    + rewrite (Registry_eqb_neq r0 r) by congruence. now apply Hother.
  - exists g. split; [apply static_exec_Initialize|]. reflexivity.
Qed.

Lemma last_app_default {A} (l1 l2 : list A) (d : A) :
  last (l1 ++ l2) d = last l2 (last l1 d).
Proof.
  revert d. induction l1 as [|x l1 IH]; intros d; [reflexivity|].
  change ((x :: l1) ++ l2) with (x :: (l1 ++ l2)).
  now rewrite !last_cons_default, IH.
Qed.

(** X3.  In the static-executable configuration every sequence of
    contribute and activate calls runs to its end; each activate makes
    exactly one callback, so a repeated activate repeats it; and each
    registry ends with the block contributed to it last (its block before
    the run when it received none), whatever activates were called in
    between. *)
Theorem static_run_one_callback_per_activate
    (es : list Entry) (g : ImageInspectionStatic.Globals) :
  exists g',
    snd (ImageInspectionStatic.run es g) = Some (tt, g')
    /\ length (trace (ImageInspectionStatic.run es g)) = activations es
    /\ forall r, ImageInspectionStatic.stored r g'
                 = last (addedTo r es) (ImageInspectionStatic.stored r g).
Proof.
  revert g. induction es as [|e es IH]; intros g.
  - exists g. repeat split.
  - destruct (static_exec_stored e g) as (g1 & He & Hs).
    destruct (IH g1) as (g2 & Hrun & Hlen & Hlast).
    assert (Hf : final (ImageInspectionStatic.exec e g) = Some g1) by (now rewrite He).
    unfold ImageInspectionStatic.run in *.
    destruct (trace_cons ImageInspectionStatic.exec e es g g1 Hf) as (Ht & Hsnd).
    exists g2. split; [now rewrite Hsnd|]. split.
    + rewrite Ht, length_app, Hlen, He. unfold trace. simpl fst.
      destruct e; reflexivity.
    + intros r. rewrite Hlast, Hs, (addedTo_cons r e es). symmetry.
      apply last_app_default.
Qed.

(* ===================================================================== *)
(** * Properties of the image constructors *)
(* ===================================================================== *)

Module ImageInspectionInitFacts.
Import ImageInspectionInit.

Lemma byteOf_value (z : Z) :
  Z.of_N (Byte.to_N (StaticELF.byteOf z)) = (z mod 256)%Z.
Proof.
  unfold StaticELF.byteOf.
  pose proof (Z.mod_pos_bound z 256 ltac:(lia)) as Hb.
  destruct (Byte.of_N (Z.to_N (z mod 256))) as [b|] eqn:E.
  - apply Byte.to_of_N in E. rewrite E. lia.
  - apply Byte.of_N_None_iff in E. lia.
Qed.

Lemma le_encode_length (n : nat) (v : Z) : length (StaticELF.le_encode n v) = n.
Proof. revert v. induction n as [|n IH]; intros v; simpl; [reflexivity|now rewrite IH]. Qed.

(** Decoding the [n]-byte encoding of [v] gives [v] modulo [256 ^ n]. *)
Lemma le_decode_encode (n : nat) (v : Z) :
  StaticELF.le_decode (StaticELF.le_encode n v) = (v mod 256 ^ Z.of_nat n)%Z.
Proof.
  revert v. induction n as [|n IH]; intros v.
  - simpl. now rewrite Z.mod_1_r.
  - cbn [StaticELF.le_encode StaticELF.le_decode].
    rewrite byteOf_value, IH, Nat2Z.inj_succ, Z.pow_succ_r by lia.
    rewrite Z.rem_mul_r by lia. reflexivity.
Qed.

(** X4.  getSectionInfo reads the size from the first eight bytes of the
    section and returns the address eight bytes past its start as the data:
    on a section that holds the eight-byte size of its records and then the
    records, the block is (start + 8, number of bytes of the records). *)
Theorem getSectionInfo_layout (addr : N) (records : list byte) :
  (Z.of_nat (length records) < 2 ^ 64)%Z ->
  getSectionInfo (layout addr records)
  = Some (mkSectionInfo (addr + 8) (N.of_nat (length records))).
Proof.
  intros Hlen. unfold getSectionInfo, layout. cbn [memory address].
  assert (Hf : firstn 8 (StaticELF.le_encode 8 (Z.of_nat (length records)) ++ records)
               = StaticELF.le_encode 8 (Z.of_nat (length records))).
  { rewrite firstn_app, le_encode_length, Nat.sub_diag, firstn_O, app_nil_r.
    apply firstn_all2. rewrite le_encode_length. lia. }
  rewrite Hf, le_encode_length. cbn [Nat.eqb].
  rewrite le_decode_encode.
  change (256 ^ Z.of_nat 8)%Z with (2 ^ 64)%Z.
  rewrite Z.mod_small by lia. now rewrite <- nat_N_Z, N2Z.id.
Qed.

Lemma getSectionInfo_layout_witness :
  getSectionInfo (layout 4096 [x01; x02; x03])
  = Some (mkSectionInfo 4104 3).
Proof. apply (getSectionInfo_layout 4096 [x01; x02; x03]). reflexivity. Defined.

(** A section shorter than its size field cannot be read. *)
Lemma getSectionInfo_short (section : Section) :
  (length (memory section) < 8)%nat -> getSectionInfo section = None.
Proof.
  intros H. unfold getSectionInfo.
  rewrite firstn_all2 by lia.
  destruct (length (memory section) =? 8)%nat eqn:E; [|reflexivity].
  apply Nat.eqb_eq in E. lia.
Qed.

Lemma loadAll_execAll {G} (exec : Entry -> Run G unit) (images : list Image) :
  Forall readable images ->
  forall g, loadAll exec images g = execAll exec (map addOf (contributions images)) g.
Proof.
  induction 1 as [|image images (Hpc & Htm) _ IH]; intros g; [reflexivity|].
  cbn [loadAll contributions flat_map app map execAll].
  change (map addOf (flat_map _ images)) with (map addOf (contributions images)).
  unfold loadSectionData, infoOf, addOf. cbn [sectionOf fst snd].
  destruct (getSectionInfo (protocolConformancesStart image)) as [a|]; [|congruence].
  destruct (getSectionInfo (typeMetadataStart image)) as [b|]; [|congruence].
  unfold bind.
  destruct (exec (Add ProtocolConformance a) g) as [t1 [[[] g1]|]]; [|reflexivity].
  destruct (exec (Add TypeMetadata b) g1) as [t2 [[[] g2]|]]; [|reflexivity].
  rewrite IH.
  change (map (fun c : Registry * SectionInfo => Add (fst c) (snd c))
            (contributions images)) with (map addOf (contributions images)).
  destruct (execAll exec (map addOf (contributions images)) g2) as [t3 r3].
  now rewrite app_assoc.
Qed.

Lemma blocksFor_contributions (r : Registry) (images : list Image) :
  blocksFor r (contributions images) = map (infoOf r) images.
Proof.
  induction images as [|image images IH]; [reflexivity|].
  cbn [contributions flat_map app]. rewrite !blocksFor_cons.
  change (flat_map _ images) with (contributions images). rewrite IH.
  now destruct r.
Qed.

(** X5.  With the dynamic-ELF registries, when the constructors of the
    images of a process have run in load order (every section readable) and
    the runtime then activates registry [r], the callback of [r] receives,
    in load order, the block (start + 8, size) of each image whose section
    has a nonzero size, and nothing for the images whose size is 0. *)
Theorem startup_delivers_each_image (images : list Image) (r : Registry) :
  Forall readable images ->
  trace (startup ImageInspectionELF.exec images r ImageInspectionELF.initial)
  = map (callbackOf r) (filter nonEmpty (map (infoOf r) images)).
Proof.
  intros Hr. unfold startup, bind.
  rewrite (loadAll_execAll ImageInspectionELF.exec images Hr).
  destruct (run_adds (contributions images) _ initial_inactive)
    as (g' & Hrun & Hin & Hpend & _).
  unfold ImageInspectionELF.run in Hrun. rewrite Hrun.
  pose proof (Initialize_inactive r g' Hin) as Hi.
  assert (H0 : pending r ImageInspectionELF.initial = []) by (now destruct r).
  rewrite Hpend, H0, blocksFor_contributions in Hi. simpl app in Hi.
  destruct (ImageInspectionELF.exec (Initialize r) g') as [t res].
  exact Hi.
Qed.

Lemma startup_delivers_each_image_witness :
  Forall readable
    [mkImage (layout 4096 [x01; x02]) (layout 8192 []);
     mkImage (layout 12288 []) (layout 16384 [x03])]
  /\ trace (startup ImageInspectionELF.exec
              [mkImage (layout 4096 [x01; x02]) (layout 8192 []);
               mkImage (layout 12288 []) (layout 16384 [x03])]
              ProtocolConformance ImageInspectionELF.initial)
     = [addImageProtocolConformanceBlockCallback 4104 2].
Proof.
  assert (H : Forall readable
                [mkImage (layout 4096 [x01; x02]) (layout 8192 []);
                 mkImage (layout 12288 []) (layout 16384 [x03])]).
  { repeat constructor; discriminate. }
  split; [exact H|].
  exact (startup_delivers_each_image _ ProtocolConformance H).
Defined.

(** X6.  With the static-executable registries, when the constructors of
    several images have run and the runtime then activates registry [r], the
    callback of [r] is called once, with the block of the image loaded
    last: the sections of the images loaded before it are not delivered.
    With no image it receives the zero block. *)
Theorem static_startup_delivers_last_image (images : list Image) (r : Registry) :
  Forall readable images ->
  trace (startup ImageInspectionStatic.exec images r ImageInspectionStatic.initial)
  = [callbackOf r (last (map (infoOf r) images) (mkSectionInfo 0 0))].
Proof.
  intros Hr. unfold startup, bind.
  rewrite (loadAll_execAll ImageInspectionStatic.exec images Hr).
  destruct (static_run_adds (contributions images) ImageInspectionStatic.initial)
    as (g' & Hrun & Hlast).
  unfold ImageInspectionStatic.run in Hrun.
  rewrite Hrun, static_exec_Initialize, Hlast, blocksFor_contributions.
  simpl. now destruct r.
Qed.

Lemma static_startup_delivers_last_image_witness :
  Forall readable
    [mkImage (layout 4096 [x01; x02]) (layout 8192 []);
     mkImage (layout 12288 []) (layout 16384 [x03])]
  /\ trace (startup ImageInspectionStatic.exec
              [mkImage (layout 4096 [x01; x02]) (layout 8192 []);
               mkImage (layout 12288 []) (layout 16384 [x03])]
              ProtocolConformance ImageInspectionStatic.initial)
     = [addImageProtocolConformanceBlockCallback 12296 0].
Proof.
  assert (H : Forall readable
                [mkImage (layout 4096 [x01; x02]) (layout 8192 []);
                 mkImage (layout 12288 []) (layout 16384 [x03])]).
  { repeat constructor; discriminate. }
  split; [exact H|].
  exact (static_startup_delivers_last_image _ ProtocolConformance H).
Defined.

End ImageInspectionInitFacts.

(* ===================================================================== *)
(** * Further properties of the static-binary parser *)
(* ===================================================================== *)

Module StaticELFMoreFacts.
Import StaticELF StaticELFFacts.
Local Open Scope Z_scope.
Local Open Scope elf_scope.

Lemma le_decode_range (bs : list byte) :
  0 <= le_decode bs < 256 ^ Z.of_nat (length bs).
Proof.
  induction bs as [|b bs IH].
  - simpl. lia.
  - cbn [le_decode length]. rewrite Nat2Z.inj_succ, Z.pow_succ_r by lia.
    pose proof (Byte.to_N_bounded b) as Hb.
    assert (0 <= Z.of_N (Byte.to_N b) <= 255) by lia.
    nia.
Qed.

(** ** executablePathName *)

Lemma c_str_app_nul (l r : list byte) : c_str (l ++ x00 :: r) = c_str l.
Proof.
  induction l as [|b l IH]; simpl.
  - reflexivity.
  - destruct (Byte.eqb b x00); [reflexivity | now rewrite IH].
Qed.

Lemma c_str_length (l : list byte) : (length (c_str l) <= length l)%nat.
Proof.
  induction l as [|b l IH]; simpl; [lia|].
  destruct (Byte.eqb b x00); simpl; lia.
Qed.

Lemma c_str_no_nul (l : list byte) : ~ In x00 l -> c_str l = l.
Proof.
  induction l as [|b l IH]; intros H; simpl; [reflexivity|].
  destruct (Byte.eqb b x00) eqn:E.
  - apply Byte.byte_dec_bl in E. subst. exfalso. apply H. now left.
  - rewrite IH; [reflexivity|]. intros Hin. apply H. now right.
Qed.

Lemma PATH_MAX_pos : (0 < PATH_MAX)%nat.
Proof. unfold PATH_MAX. lia. Qed.

Lemma executablePathName_link (t filename : list byte) :
  executablePathName (Some t) filename = Ok (c_str (firstn (PATH_MAX - 1) t)).
Proof.
  pose proof PATH_MAX_pos as Hpos.
  unfold executablePathName, readlink, option_map.
  set (written := firstn (PATH_MAX - 1) t).
  assert (Hret : (length written <= PATH_MAX - 1)%nat)
    by (unfold written; rewrite length_firstn; lia).
  replace (PATH_MAX <=? length written)%nat with false
    by (symmetry; apply Nat.leb_gt; lia).
  unfold store.
  assert (Hlen : length (written ++ skipn (length written) (repeat x00 PATH_MAX))
                 = PATH_MAX).
  { rewrite length_app, length_skipn, repeat_length. lia. }
  rewrite Hlen.
  replace (length written <? PATH_MAX)%nat with true
    by (symmetry; apply Nat.ltb_lt; lia).
  cbn [bind].
  rewrite firstn_app, Nat.sub_diag, firstn_O, app_nil_r, firstn_all.
  now rewrite c_str_app_nul.
Qed.

Lemma executablePathName_total (link : option (list byte)) (filename : list byte) :
  exists path, executablePathName link filename = Ok path.
Proof.
  destruct link as [t|]; [|eexists; reflexivity].
  eexists. apply executablePathName_link.
Qed.

(** X11.  executablePathName never writes outside its buffer.  When
    readlink fails the path is the file name given; otherwise it is the
    target of the link cut to PATH_MAX - 1 bytes (and at its first NUL):
    a target without NUL of at most PATH_MAX - 1 bytes is kept whole, a
    longer one loses its end without any error. *)
Theorem executablePathName_truncates (link : option (list byte)) (filename : list byte) :
  exists path,
    executablePathName link filename = Ok path
    /\ match link with
       | None => path = c_str filename
       | Some t =>
           path = c_str (firstn (PATH_MAX - 1) t)
           /\ (length path <= PATH_MAX - 1)%nat
           /\ (~ In x00 t -> (length t <= PATH_MAX - 1)%nat -> path = t)
           /\ (~ In x00 t -> (PATH_MAX - 1 < length t)%nat ->
               path = firstn (PATH_MAX - 1) t /\ length path = (PATH_MAX - 1)%nat)
       end.
Proof.
  destruct link as [t|].
  - exists (c_str (firstn (PATH_MAX - 1) t)).
    split; [apply executablePathName_link|]. split; [reflexivity|].
    assert (Hno : ~ In x00 t -> c_str (firstn (PATH_MAX - 1) t) = firstn (PATH_MAX - 1) t).
    { intros Hn. apply c_str_no_nul. intros Hin. apply Hn.
      rewrite <- (firstn_skipn (PATH_MAX - 1) t). apply in_or_app. now left. }
    split; [|split].
    + etransitivity; [apply c_str_length|]. rewrite length_firstn. lia.
    + intros Hn Hl. rewrite (Hno Hn). now apply firstn_all2.
    + intros Hn Hl. rewrite (Hno Hn). split; [reflexivity|].
      rewrite length_firstn. lia.
  - exists (c_str filename). split; reflexivity.
Qed.

Section MoreFacts.

Variable T : ElfTypes.
Variable os : OS.

(** ** Reads *)

(** A member that is read lies in the mapping, which is not null, and its
    value fits its width. *)
Lemma load_Ok (s : StaticBinaryELF) (p : Z) (f : Field) (v : Z) :
  load os s p f = Ok v ->
  mapping s <> 0
  /\ mapping s <= p + offset f
  /\ p + offset f + Z.of_nat (width f) <= mapping s + mapLength s
  /\ 0 <= v < 256 ^ Z.of_nat (width f).
Proof.
  unfold load, mapped. intros H.
  destruct (mapping s =? 0) eqn:Hm; simpl in H; [discriminate|].
  destruct (mapping s <=? p + offset f) eqn:Hl; simpl in H; [|discriminate].
  destruct (p + offset f + Z.of_nat (width f) <=? mapping s + mapLength s) eqn:Hu;
    [|discriminate].
  destruct (length (firstn (width f)
              (skipn (Z.to_nat (p + offset f - mapping s)) (fileBytes os)))
            =? width f)%nat eqn:Hlen; [|discriminate].
  inversion H; subst v. apply Nat.eqb_eq in Hlen.
  apply Z.eqb_neq in Hm. apply Z.leb_le in Hl. apply Z.leb_le in Hu.
  repeat split; try assumption.
  - apply le_decode_range.
  - rewrite <- Hlen at 2. apply le_decode_range.
Qed.

(** A read depends on the mapping only, not on the pointers the object
    keeps into it. *)
Lemma load_same_mapping (s s' : StaticBinaryELF) (p : Z) (f : Field) :
  mapping s' = mapping s -> mapLength s' = mapLength s ->
  load os s' p f = load os s p f.
Proof. intros Hm Hl. unfold load, mapped. now rewrite Hm, Hl. Qed.

Lemma readArray_nth {A} (read : Z -> Result A) :
  forall n idx xs (k : nat) x,
    readArray read n idx = Ok xs -> nth_error xs k = Some x ->
    read (idx + Z.of_nat k) = Ok x.
Proof.
  induction n as [|n IH]; intros idx xs k x H Hk; simpl in H.
  - inversion H; subst. destruct k; discriminate.
  - apply bind_Ok in H. destruct H as (x0 & Hx0 & H).
    apply bind_Ok in H. destruct H as (rest & Hrest & H).
    inversion H; subst xs; clear H. destruct k as [|k].
    + simpl in Hk. inversion Hk; subst. now rewrite Z.add_0_r.
    + simpl in Hk. replace (idx + Z.of_nat (S k)) with (idx + 1 + Z.of_nat k) by lia.
      eapply IH; eauto.
Qed.

(** ** expandMapping *)

(** X7.  expandMapping fails, and leaves the object as it is, when there is
    no mapping, when the request is past the end of the file and when
    mremap fails.  When it succeeds the mapping covers the request, has not
    shrunk, ends within the file if it did before, and [elfHeader] is the
    start of the mapping if it was before; the file size and the two table
    pointers are never changed. *)
Theorem expandMapping_contract (s : StaticBinaryELF) (size : Z) :
  (snd (expandMapping os s size) = false -> fst (expandMapping os s size) = s)
  /\ (mapping s = 0 \/ fileSize s < size -> snd (expandMapping os s size) = false)
  /\ (mapping s <> 0 -> size <= fileSize s -> size <= mapLength s ->
      expandMapping os s size = (s, true))
  /\ (mapping s <> 0 -> size <= fileSize s -> mapLength s < size ->
      os_mremap os (mapping s) (mapLength s) size = None ->
      expandMapping os s size = (s, false))
  /\ (snd (expandMapping os s size) = true ->
      size <= mapLength (fst (expandMapping os s size))
      /\ size <= fileSize s
      /\ mapLength s <= mapLength (fst (expandMapping os s size))
      /\ (mapLength s <= fileSize s ->
          mapLength (fst (expandMapping os s size)) <= fileSize s)
      /\ (elfHeader s = mapping s ->
          elfHeader (fst (expandMapping os s size))
          = mapping (fst (expandMapping os s size))))
  /\ fileSize (fst (expandMapping os s size)) = fileSize s
  /\ symbolTable (fst (expandMapping os s size)) = symbolTable s
  /\ stringTable (fst (expandMapping os s size)) = stringTable s.
Proof.
  unfold expandMapping.
  destruct (mapping s =? 0) eqn:Hm; simpl orb; cbv iota.
  - apply Z.eqb_eq in Hm. simpl. repeat split; auto; try congruence; try discriminate.
  - apply Z.eqb_neq in Hm. destruct (fileSize s <? size) eqn:Hf.
    + apply Z.ltb_lt in Hf. simpl.
      repeat split; auto; try discriminate; intros; lia.
    + apply Z.ltb_ge in Hf. destruct (mapLength s <? size) eqn:Hl.
      * apply Z.ltb_lt in Hl.
        destruct (os_mremap os (mapping s) (mapLength s) size) as [map|]; simpl;
          repeat split; auto; try discriminate; try congruence; intros; try lia;
          try (destruct H; [congruence | lia]).
      * apply Z.ltb_ge in Hl. simpl.
        repeat split; auto; try discriminate; try congruence; intros; try lia;
          try (destruct H; [congruence | lia]).
Qed.

(** ** findSection *)

(** X8.  With a readable section header table, findSection either returns
    null and leaves the object as it is, or returns the address of a section
    header of the table and leaves a mapping that has not shrunk and covers
    the file up to the end of that section, sh_offset + sh_size (the Elf_Off
    sum of the code); that section end lies within the file, and fileSize is
    as before.  When no section other than the one at e_shstrndx has the
    requested type (a stripped binary) it returns null. *)
Theorem findSection_covers_section
    (s : StaticBinaryELF) (sectionType headers shstrndx : Z) (hs : list Shdr) :
  sectionHeaders T os s = Ok (headers, shstrndx, hs) ->
  exists s' p,
    findSection T os s sectionType = Ok (s', p)
    /\ ((p = 0 /\ s' = s)
        \/ exists (k : nat) h,
             nth_error hs k = Some h
             /\ p = headers + Z.of_nat k * sizeof_Shdr T
             /\ wrap T (sec_offset h + sec_size h) <= mapLength s'
             /\ wrap T (sec_offset h + sec_size h) <= fileSize s'
             /\ mapLength s <= mapLength s'
             /\ fileSize s' = fileSize s)
    /\ ((forall (k : nat) h, nth_error hs k = Some h ->
                             Z.of_nat k = shstrndx \/ sec_type h <> sectionType) ->
        p = 0 /\ s' = s).
Proof.
  intros Hv. rewrite (findSection_firstHit T os s sectionType headers shstrndx hs Hv).
  destruct (firstHit (candidate shstrndx sectionType) 0 hs) as [[i h]|] eqn:Hf.
  - apply firstHit_Some in Hf. destruct Hf as (k & Hi & Hn & Ht & _).
    simpl in Hi. subst i.
    assert (Hcand : ~ (forall (k : nat) h, nth_error hs k = Some h ->
                         Z.of_nat k = shstrndx \/ sec_type h <> sectionType)).
    { intros Hall. unfold candidate in Ht. apply andb_true_iff in Ht.
      destruct Ht as (Hndx & Hty). apply negb_true_iff, Z.eqb_neq in Hndx.
      apply Z.eqb_eq in Hty. destruct (Hall k h Hn); contradiction. }
    unfold selected. destruct (corrupt h).
    + exists s, 0. split; [reflexivity|]. split; [now left | intros; contradiction].
    + pose proof (expandMapping_contract s (wrap T (sec_offset h + sec_size h)))
        as (Hfail & _ & _ & _ & Hok & Hfs & _).
      destruct (expandMapping os s (wrap T (sec_offset h + sec_size h)))
        as [s' ok] eqn:He. simpl in *. destruct ok.
      * exists s', (headers + Z.of_nat k * sizeof_Shdr T).
        split; [reflexivity|]. split; [|intros; contradiction].
        right. exists k, h. destruct (Hok eq_refl) as (H1 & H2 & H3 & _).
        repeat split; try assumption. lia.
      * exists s', 0. split; [reflexivity|]. rewrite (Hfail eq_refl).
        split; [now left | intros; contradiction].
  - exists s, 0. split; [reflexivity|]. split; [now left | auto].
Qed.

(** X9.  findSection tests the size of a section against its entry size
    only when the entry size is nonzero, so it accepts a symbol table
    section whose sh_entsize is 0; findSymbol on the symbol table found
    divides sh_size by that sh_entsize: its result is undefined at every
    address. *)
Theorem zero_entsize_symbol_table_accepted
    (s : StaticBinaryELF) (headers shstrndx : Z) (hs : list Shdr)
    (k : nat) (h : Shdr) :
  sectionHeaders T os s = Ok (headers, shstrndx, hs) ->
  nth_error hs k = Some h ->
  Z.of_nat k <> shstrndx ->
  sec_type h = SHT_SYMTAB ->
  (forall (j : nat) h', (j < k)%nat -> nth_error hs j = Some h' ->
                        Z.of_nat j = shstrndx \/ sec_type h' <> SHT_SYMTAB) ->
  sec_entsize h = 0 ->
  wrap T (sec_offset h + sec_size h) <= mapLength s ->
  wrap T (sec_offset h + sec_size h) <= fileSize s ->
  headers + Z.of_nat k * sizeof_Shdr T <> 0 ->
  findSection T os s SHT_SYMTAB = Ok (s, headers + Z.of_nat k * sizeof_Shdr T)
  /\ forall addr,
      findSymbol T os (withSymbolTable s (headers + Z.of_nat k * sizeof_Shdr T)) addr
      = Fault.
Proof.
  intros Hv Hk Hndx Hty Hbefore Hent Hmap Hfile Hnz.
  pose proof Hv as Hv'. unfold sectionHeaders in Hv'.
  apply bind_Ok in Hv'. destruct Hv' as (shoff & Hshoff & Hv').
  apply bind_Ok in Hv'. destruct Hv' as (shnum & _ & Hv').
  apply bind_Ok in Hv'. destruct Hv' as (ndx & _ & Hv').
  apply bind_Ok in Hv'. destruct Hv' as (hs' & Hhs & Hv').
  inversion Hv'; subst headers shstrndx hs'; clear Hv'.
  destruct (load_Ok s _ _ _ Hshoff) as (Hm & _).
  split.
  - rewrite (findSection_firstHit T os s SHT_SYMTAB _ _ hs Hv).
    rewrite (firstHit_intro (candidate ndx SHT_SYMTAB) hs 0 k h Hk).
    + unfold selected, corrupt. rewrite Hent. simpl andb. cbv iota.
      destruct (expandMapping_contract s (wrap T (sec_offset h + sec_size h)))
        as (_ & _ & Hsame & _).
      rewrite (Hsame Hm Hfile Hmap). reflexivity.
    + unfold candidate. simpl.
      replace (Z.of_nat k =? ndx) with false by (symmetry; now apply Z.eqb_neq).
      simpl. now apply Z.eqb_eq.
    + intros j h' Hj Hh'. unfold candidate. simpl.
      destruct (Hbefore j h' Hj Hh') as [E|E].
      * apply Z.eqb_eq in E. now rewrite E.
      * apply Z.eqb_neq in E. rewrite E. apply andb_false_r.
  - intros addr. pose proof (readArray_nth _ _ _ _ k h Hhs Hk) as Hh.
    simpl in Hh. unfold shdrAt in Hh.
    apply bind_Ok in Hh. destruct Hh as (ty & _ & Hh).
    apply bind_Ok in Hh. destruct Hh as (off & _ & Hh).
    apply bind_Ok in Hh. destruct Hh as (sz & Hsz & Hh).
    apply bind_Ok in Hh. destruct Hh as (es & Hes & Hh).
    inversion Hh; subst h; clear Hh. simpl in Hent. subst es.
    unfold findSymbol. cbn [symbolTable withSymbolTable].
    apply Z.eqb_neq in Hnz. rewrite Hnz. simpl negb. cbv iota.
    assert (Hl : forall p f,
               load os (withSymbolTable s (mapping s + shoff + Z.of_nat k * sizeof_Shdr T))
                 p f = load os s p f)
      by (intros; apply load_same_mapping; reflexivity).
    rewrite !Hl, Hsz. simpl. rewrite Hes. reflexivity.
Qed.

(** ** What construction leaves *)

Lemma expandMapping_enabled (s s' : StaticBinaryELF) (size : Z) (ok : bool) :
  mremapNotNull os -> enabled T s ->
  expandMapping os s size = (s', ok) -> enabled T s'.
Proof.
  intros Hos (Hm & He & Hl) H. unfold expandMapping in H.
  destruct ((mapping s =? 0) || (fileSize s <? size)) eqn:Hc.
  - inversion H; subst. unfold enabled; tauto.
  - apply orb_false_iff in Hc. destruct Hc as (_ & Hf). apply Z.ltb_ge in Hf.
    destruct (mapLength s <? size) eqn:Hlt.
    + apply Z.ltb_lt in Hlt.
      destruct (os_mremap os (mapping s) (mapLength s) size) as [map|] eqn:Hr;
        inversion H; subst; [|unfold enabled; tauto].
      repeat split; simpl; try lia. exact (Hos _ _ _ _ Hm Hr).
    + inversion H; subst. unfold enabled; tauto.
Qed.

Lemma findSection_enabled (s s' : StaticBinaryELF) (sectionType p : Z) :
  mremapNotNull os -> enabled T s ->
  findSection T os s sectionType = Ok (s', p) -> enabled T s'.
Proof.
  intros Hos Hen H. unfold findSection in H.
  apply bind_Ok in H. destruct H as (shoff & _ & H).
  apply bind_Ok in H. destruct H as (shnum & _ & H).
  apply bind_Ok in H. destruct H as (r & Hloop & H).
  destruct r as [[s1 p1]|]; inversion H; subst; clear H; [|exact Hen].
  revert Hloop. apply (forLoop_Some_inv (fun c => enabled T (fst c))).
  intros idx [s1 p1] Hb. simpl.
  apply bind_Ok in Hb. destruct Hb as (ndx & _ & Hb).
  destruct (idx =? ndx); [discriminate|].
  apply bind_Ok in Hb. destruct Hb as (ty & _ & Hb).
  destruct (ty =? sectionType); [|discriminate].
  apply bind_Ok in Hb. destruct Hb as (c & _ & Hb).
  destruct c; [inversion Hb; subst; exact Hen|].
  apply bind_Ok in Hb. destruct Hb as (off & _ & Hb).
  apply bind_Ok in Hb. destruct Hb as (size & _ & Hb).
  destruct (expandMapping os s (wrap T (off + size))) as [s2 ok] eqn:He.
  apply (expandMapping_enabled s s2 _ ok Hos Hen) in He.
  destruct ok; inversion Hb; subst; exact He.
Qed.

Lemma withSymbolTable_enabled (s : StaticBinaryELF) (p : Z) :
  enabled T s -> enabled T (withSymbolTable s p).
Proof. intros H. exact H. Qed.

Lemma readElfHeader_enabled (s s' : StaticBinaryELF) :
  mremapNotNull os -> mapLength s = sizeof_Ehdr T ->
  readElfHeader T os s = Ok (s', true) -> enabled T s'.
Proof.
  intros Hos Hlen H. unfold readElfHeader in H.
  apply bind_Ok in H. destruct H as (bad & Hmagic & H).
  assert (Hen : enabled T (withElfHeader s (mapping s))).
  { unfold magicDiffers, orElse, differs in Hmagic.
    apply bind_Ok in Hmagic. destruct Hmagic as (x1 & Hmagic & _).
    apply bind_Ok in Hmagic. destruct Hmagic as (x2 & Hmagic & _).
    apply bind_Ok in Hmagic. destruct Hmagic as (x3 & Hmagic & _).
    apply bind_Ok in Hmagic. destruct Hmagic as (x4 & Hmagic & _).
    apply load_Ok in Hmagic. destruct Hmagic as (Hm & _).
    simpl in Hm. repeat split; simpl; try assumption; lia. }
  destruct bad; [discriminate|].
  apply bind_Ok in H. destruct H as (bad & _ & H).
  destruct bad; [discriminate|].
  apply bind_Ok in H. destruct H as ([s1 ok1] & Hmap & H).
  assert (Hen1 : enabled T s1).
  { unfold mapProgramHeaders in Hmap.
    apply bind_Ok in Hmap. destruct Hmap as (a & _ & Hmap).
    apply bind_Ok in Hmap. destruct Hmap as (b & _ & Hmap).
    apply bind_Ok in Hmap. destruct Hmap as (c & _ & Hmap).
    apply bind_Ok in Hmap. destruct Hmap as (d & _ & Hmap).
    inversion Hmap as [He]. eapply expandMapping_enabled; eauto. }
  destruct ok1; simpl in H; [|discriminate].
  apply bind_Ok in H. destruct H as (interp & _ & H).
  destruct interp; [discriminate|].
  apply bind_Ok in H. destruct H as ([s2 ok2] & Hmap2 & H).
  assert (Hen2 : enabled T s2).
  { unfold mapSectionHeaders in Hmap2.
    apply bind_Ok in Hmap2. destruct Hmap2 as (a & _ & Hmap2).
    apply bind_Ok in Hmap2. destruct Hmap2 as (b & _ & Hmap2).
    apply bind_Ok in Hmap2. destruct Hmap2 as (c & _ & Hmap2).
    apply bind_Ok in Hmap2. destruct Hmap2 as (d & _ & Hmap2).
    inversion Hmap2 as [He]. eapply expandMapping_enabled; eauto. }
  destruct ok2; simpl in H; [|discriminate].
  apply bind_Ok in H. destruct H as ([sa symtab] & Ha & H).
  apply (findSection_enabled s2 sa _ _ Hos Hen2) in Ha.
  apply bind_Ok in H. destruct H as ([sb strtab] & Hb & H).
  apply (findSection_enabled _ sb _ _ Hos (withSymbolTable_enabled sa symtab Ha)) in Hb.
  inversion H; subst. exact Hb.
Qed.

(** X10.  Whatever the file holds, a construction that ends leaves the
    parser either disabled (nothing mapped, all pointers null) or enabled
    with [elfHeader] equal to the start of the mapping and a mapping that
    holds the ELF header and ends within the file; so getSectionLoadAddress
    never reads through a stale header pointer. *)
Theorem construct_disabled_or_enabled (s : StaticBinaryELF) :
  mremapNotNull os ->
  construct T os = Ok s ->
  disabled s \/ enabled T s.
Proof.
  intros Hos H. unfold construct, mmapExecutable in H.
  destruct (os_open os) as [bytes|]; [|inversion H; left; repeat split].
  destruct (os_fstat os); simpl in H; [|inversion H; left; repeat split].
  destruct (os_mmap os) as [map|]; [|inversion H; left; repeat split].
  apply bind_Ok in H. destruct H as ([s1 b1] & H & Hs).
  apply bind_Ok in H. destruct H as ([s2 ok] & Hr & H).
  destruct ok; simpl in H; inversion H; subst; inversion Hs; subst.
  - right. eapply readElfHeader_enabled; [exact Hos | | exact Hr]. reflexivity.
  - left. repeat split.
Qed.

(** ** The answers of the queries *)




(** ** symbolName *)

(** X12.  symbolName returns null when there is no string table; a name it
    returns starts inside the string table, at the symbol's st_name from
    its start: mapping + sh_offset <= name < mapping + sh_offset + sh_size.
    (That the name ends inside the table is not tested.) *)
Theorem symbolName_inside_string_table (s : StaticBinaryELF) (symbol name : Z) :
  symbolName T os s symbol = Ok name ->
  name <> 0 ->
  stringTable s <> 0
  /\ exists off size st_name_value,
      load os s (stringTable s) (sh_offset T) = Ok off
      /\ load os s (stringTable s) (sh_size T) = Ok size
      /\ load os s symbol (st_name T) = Ok st_name_value
      /\ name = mapping s + off + st_name_value
      /\ mapping s + off <= name < mapping s + off + size.
Proof.
  unfold symbolName, orElse. intros H Hnz. cbn [bind] in H.
  destruct (stringTable s =? 0) eqn:Hst.
  - simpl in H. inversion H. congruence.
  - apply Z.eqb_neq in Hst. split; [exact Hst|].
    apply bind_Ok in H. destruct H as (none & Hcond & H).
    apply bind_Ok in Hcond. destruct Hcond as (nm & Hnm & Hcond).
    apply bind_Ok in Hcond. destruct Hcond as (size & Hsize & Hcond).
    inversion Hcond; subst none; clear Hcond.
    destruct (size <=? nm) eqn:Hle; [inversion H; congruence|].
    apply Z.leb_gt in Hle.
    apply bind_Ok in H. destruct H as (off & Hoff & H).
    rewrite Hnm in H. simpl in H. inversion H; subst name; clear H.
    destruct (load_Ok s _ _ _ Hnm) as (_ & _ & _ & Hrange).
    exists off, size, nm. repeat split; try assumption; lia.
Qed.

Lemma symbolName_no_string_table (s : StaticBinaryELF) (symbol : Z) :
  stringTable s = 0 -> symbolName T os s symbol = Ok 0.
Proof. intros H. unfold symbolName, orElse. now rewrite H. Qed.

(** ** _swift_dladdr *)


(** X14.  The first call of _swift_dladdr on an executable whose parser
    ends disabled (it cannot be opened or mapped, or it is rejected) still
    returns 1: it sets dli_fname to the path and leaves dli_fbase,
    dli_sname and dli_saddr null, and keeps the disabled parser for the
    calls that follow. *)
Theorem swift_dladdr_disabled_parser
    (link : option (list byte)) (old : option Binary) (s : StaticBinaryELF) (addr : Z) :
  construct T os = Ok s ->
  elfHeader s = 0 -> symbolTable s = 0 ->
  exists path,
    executablePathName link proc_self_exe = Ok path
    /\ _swift_dladdr T os link (mkStatics old false) addr
       = Ok (mkStatics (Some (mkBinary path s)) true, 1, mkDl_info path 0 0 0)
    /\ forall addr',
        _swift_dladdr T os link (mkStatics (Some (mkBinary path s)) true) addr'
        = Ok (mkStatics (Some (mkBinary path s)) true, 1, mkDl_info path 0 0 0).
Proof.
  intros Hc He Hs.
  destruct (executablePathName_total link proc_self_exe) as (path & Hpath).
  exists path. split; [exact Hpath|].
  unfold construct in Hc. apply bind_Ok in Hc. destruct Hc as ([s1 b1] & Hm & Hc).
  inversion Hc; subst s1; clear Hc.
  assert (Hq : forall a, _swift_dladdr T os link
                 (mkStatics (Some (mkBinary path s)) true) a
               = Ok (mkStatics (Some (mkBinary path s)) true, 1, mkDl_info path 0 0 0)).
  { intros a. unfold _swift_dladdr. cbn [onceToken binary bind elf fullPathName].
    rewrite (getSectionLoadAddress_null T os s a He). cbn [bind].
    rewrite (findSymbol_null T os s a Hs). reflexivity. }
  split; [|exact Hq].
  unfold _swift_dladdr at 1. cbn [onceToken].
  unfold newStaticBinaryELF. rewrite Hpath. cbn [bind]. rewrite Hm. cbn [bind].
  cbn [binary elf fullPathName].
  rewrite (getSectionLoadAddress_null T os s addr He). cbn [bind].
  rewrite (findSymbol_null T os s addr Hs). reflexivity.
Qed.

(** ** Tables that do not fit in the file *)

Lemma expandMapping_past_file (s : StaticBinaryELF) (size : Z) :
  fileSize s < size -> expandMapping os s size = (s, false).
Proof.
  intros H. destruct (expandMapping os s size) as [s' ok] eqn:He.
  destruct (expandMapping_within_file os s s' size ok He) as (Hpast & _).
  destruct (Hpast H) as (-> & ->). reflexivity.
Qed.

(** X15.  An executable with a valid header whose program header table, or
    (when it has no PT_INTERP) whose section header table, ends past the
    end of the file is not read past its end: the grow fails, and
    construction ends with the parser disabled.  The end of the table is the
    value the code computes: the Elf_Off sum (modulo the word size) of the
    table offset and entsize * num, a product that does not overflow int. *)
Theorem table_past_end_of_file_disables_parser
    (bytes : list byte) (map entsize num off : Z) (s1 : StaticBinaryELF) :
  os_open os = Some bytes -> os_fstat os = true -> os_mmap os = Some map ->
  magicDiffers os
    (mkStaticBinaryELF (sizeof_Ehdr T) (wrap T (Z.of_nat (length bytes))) map map 0 0)
  = Ok false ->
  notCurrentExecutable T os
    (mkStaticBinaryELF (sizeof_Ehdr T) (wrap T (Z.of_nat (length bytes))) map map 0 0)
  = Ok false ->
  entsize * num <= INT_MAX ->
  wrap T (Z.of_nat (length bytes)) < wrap T (off + entsize * num) ->
  (s1 = mkStaticBinaryELF (sizeof_Ehdr T) (wrap T (Z.of_nat (length bytes))) map map 0 0
   /\ load os s1 map (e_phentsize T) = Ok entsize
   /\ load os s1 map (e_phnum T) = Ok num
   /\ load os s1 map (e_phoff T) = Ok off)
  \/ (mapProgramHeaders T os
        (mkStaticBinaryELF (sizeof_Ehdr T) (wrap T (Z.of_nat (length bytes))) map map 0 0)
      = Ok (s1, true)
      /\ hasInterpreter T os s1 = Ok false
      /\ load os s1 (elfHeader s1) (e_shentsize T) = Ok entsize
      /\ load os s1 (elfHeader s1) (e_shnum T) = Ok num
      /\ load os s1 (elfHeader s1) (e_shoff T) = Ok off) ->
  construct T os
  = Ok (mkStaticBinaryELF 0 (wrap T (Z.of_nat (length bytes))) 0 0 0 0).
Proof.
  intros Ho Hf Hm Hmagic Hkind Hmul Hpast Hcase.
  assert (Hr : exists s', readElfHeader T os
                 (mkStaticBinaryELF (sizeof_Ehdr T) (wrap T (Z.of_nat (length bytes)))
                    map 0 0 0) = Ok (s', false)
               /\ fileSize s' = wrap T (Z.of_nat (length bytes))).
  { unfold readElfHeader. cbv zeta.
    change (withElfHeader
              (mkStaticBinaryELF (sizeof_Ehdr T) (wrap T (Z.of_nat (length bytes)))
                 map 0 0 0)
              (mapping
                 (mkStaticBinaryELF (sizeof_Ehdr T) (wrap T (Z.of_nat (length bytes)))
                    map 0 0 0)))
      with (mkStaticBinaryELF (sizeof_Ehdr T) (wrap T (Z.of_nat (length bytes)))
              map map 0 0).
    rewrite Hmagic. cbn [bind]. rewrite Hkind. cbn [bind].
    apply Z.leb_le in Hmul.
    destruct Hcase as [(-> & H1 & H2 & H3) | (Hmap & Hi & H1 & H2 & H3)].
    - unfold mapProgramHeaders. cbn [elfHeader].
      rewrite H1. cbn [bind]. rewrite H2. cbn [bind].
      unfold int_mul. rewrite Hmul. cbn [bind]. rewrite H3. cbn [bind].
      rewrite expandMapping_past_file by exact Hpast.
      cbn [negb]. eexists. split; reflexivity.
    - rewrite Hmap. cbn [bind negb]. rewrite Hi. cbn [bind].
      assert (Hfs : fileSize s1 = wrap T (Z.of_nat (length bytes))).
      { unfold mapProgramHeaders in Hmap.
        apply bind_Ok in Hmap. destruct Hmap as (a & _ & Hmap).
        apply bind_Ok in Hmap. destruct Hmap as (b & _ & Hmap).
        apply bind_Ok in Hmap. destruct Hmap as (c & _ & Hmap).
        apply bind_Ok in Hmap. destruct Hmap as (d & _ & Hmap).
        inversion Hmap as [He].
        apply expandMapping_tables in He. destruct He as (_ & _ & He).
        exact He. }
      unfold mapSectionHeaders.
      rewrite H1. cbn [bind]. rewrite H2. cbn [bind].
      unfold int_mul. rewrite Hmul. cbn [bind]. rewrite H3. cbn [bind].
      rewrite expandMapping_past_file by (rewrite Hfs; exact Hpast).
      cbn [negb]. eexists. split; [reflexivity | exact Hfs]. }
  destruct Hr as (s' & Hr & Hfs).
  rewrite (construct_readElfHeader_false T os bytes map s' Ho Hf Hm Hr), Hfs.
  reflexivity.
Qed.

(** ** Reads across a grow *)

(** X16.  A grow that leaves the mapping at its address (it failed, nothing
    had to grow, or mremap extended the mapping in place) keeps every read:
    a member that could be read before reads the same value afterwards. *)
Theorem grow_in_place_keeps_reads
    (s s' : StaticBinaryELF) (size : Z) (ok : bool) (p : Z) (f : Field) (v : Z) :
  expandMapping os s size = (s', ok) ->
  mapping s' = mapping s ->
  load os s p f = Ok v ->
  load os s' p f = Ok v.
Proof.
  intros He Hm Hl.
  assert (Hlen : mapLength s <= mapLength s').
  { destruct (expandMapping_within_file os s s' size ok He) as (_ & Hok & Hfail).
    destruct ok; [destruct (Hok eq_refl) as (_ & H & _); exact H|].
    rewrite (Hfail eq_refl). lia. }
  destruct (load_Ok s p f v Hl) as (Hnz & Hlo & Hhi & _).
  unfold load, mapped in *. rewrite Hm.
  apply Z.eqb_neq in Hnz. rewrite Hnz in *. simpl negb in *. simpl andb in *.
  replace (mapping s <=? p + offset f) with true in *
    by (symmetry; apply Z.leb_le; lia).
  simpl andb in *.
  replace (p + offset f + Z.of_nat (width f) <=? mapping s + mapLength s') with true
    by (symmetry; apply Z.leb_le; lia).
  replace (p + offset f + Z.of_nat (width f) <=? mapping s + mapLength s) with true in Hl
    by (symmetry; apply Z.leb_le; lia).
  exact Hl.
Qed.

End MoreFacts.

(** ** The theorems above on the sample images *)

Lemma findSection_covers_section_witness :
  sectionHeaders Elf64 (growInPlace headersFirstImage)
    (mkStaticBinaryELF 256 288 65536 65536 0 0)
  = Ok (65600, 0, [mkShdr 0 0 0 0; mkShdr SHT_SYMTAB 256 24 24; mkShdr SHT_STRTAB 280 8 0])
  /\ exists s' p,
      findSection Elf64 (growInPlace headersFirstImage)
        (mkStaticBinaryELF 256 288 65536 65536 0 0) SHT_SYMTAB = Ok (s', p)
      /\ mapLength s' = 280 /\ p = 65664.
Proof.
  split; [vm_compute; reflexivity|].
  destruct (findSection_covers_section Elf64
              (growInPlace headersFirstImage)
              (mkStaticBinaryELF 256 288 65536 65536 0 0) SHT_SYMTAB 65600 0
              [mkShdr 0 0 0 0; mkShdr SHT_SYMTAB 256 24 24; mkShdr SHT_STRTAB 280 8 0]
              ltac:(vm_compute; reflexivity)) as (s' & p & Hfind & _ & _).
  exists s', p. split; [exact Hfind|].
  vm_compute in Hfind. inversion Hfind. split; reflexivity.
Defined.

Lemma zero_entsize_symbol_table_accepted_witness :
  sectionHeaders Elf64 (growInPlace zeroEntsizeImage)
    (mkStaticBinaryELF 368 368 65536 65536 0 0)
  = Ok (65712, 0, [mkShdr 0 0 0 0; mkShdr SHT_SYMTAB 120 48 0; mkShdr SHT_STRTAB 168 3 0])
  /\ construct Elf64 (growInPlace zeroEntsizeImage)
     = Ok (mkStaticBinaryELF 368 368 65536 65536 65776 65840)
  /\ findSymbol Elf64 (growInPlace zeroEntsizeImage)
       (mkStaticBinaryELF 368 368 65536 65536 65776 0) 4198416 = Fault.
Proof.
  split; [vm_compute; reflexivity|]. split; [vm_compute; reflexivity|].
  apply (proj2 (zero_entsize_symbol_table_accepted Elf64 (growInPlace zeroEntsizeImage)
           (mkStaticBinaryELF 368 368 65536 65536 0 0) 65712 0
           [mkShdr 0 0 0 0; mkShdr SHT_SYMTAB 120 48 0; mkShdr SHT_STRTAB 168 3 0]
           1%nat (mkShdr SHT_SYMTAB 120 48 0)
           ltac:(vm_compute; reflexivity) eq_refl ltac:(discriminate) eq_refl
           ltac:(intros [|j] h' Hj Hh'; [left; reflexivity | lia])
           eq_refl ltac:(vm_compute; discriminate) ltac:(vm_compute; discriminate)
           ltac:(discriminate))).
Defined.

Lemma construct_disabled_or_enabled_witness :
  mremapNotNull (growInPlace staticImage)
  /\ construct Elf64 (growInPlace staticImage)
     = Ok (mkStaticBinaryELF 368 368 65536 65536 65776 65840)
  /\ (disabled (mkStaticBinaryELF 368 368 65536 65536 65776 65840)
      \/ enabled Elf64 (mkStaticBinaryELF 368 368 65536 65536 65776 65840)).
Proof.
  assert (Hos : mremapNotNull (growInPlace staticImage)).
  { intros old l n map Hold H. simpl in H. inversion H; subst. exact Hold. }
  split; [exact Hos|]. split; [vm_compute; reflexivity|].
  apply (construct_disabled_or_enabled Elf64 (growInPlace staticImage) _ Hos).
  vm_compute; reflexivity.
Defined.


Lemma table_past_end_of_file_disables_parser_witness :
  length truncatedImage = 100%nat
  /\ construct Elf64 (growInPlace truncatedImage)
     = Ok (mkStaticBinaryELF 0 100 0 0 0 0).
Proof.
  split; [vm_compute; reflexivity|].
  apply (table_past_end_of_file_disables_parser Elf64 (growInPlace truncatedImage)
           truncatedImage 65536 56 1 64
           (mkStaticBinaryELF 64 100 65536 65536 0 0)).
  - reflexivity.
  - reflexivity.
  - reflexivity.
  - vm_compute; reflexivity.
  - vm_compute; reflexivity.
  - vm_compute; discriminate.
  - vm_compute; reflexivity.
  - left. repeat split; vm_compute; reflexivity.
Defined.

Lemma symbolName_inside_string_table_witness :
  symbolName Elf64 (growInPlace staticImage)
    (mkStaticBinaryELF 368 368 65536 65536 65776 65840) 65680 = Ok 65705
  /\ exists off size st_name_value,
      load (growInPlace staticImage)
        (mkStaticBinaryELF 368 368 65536 65536 65776 65840) 65840 (sh_offset Elf64)
      = Ok off
      /\ load (growInPlace staticImage)
           (mkStaticBinaryELF 368 368 65536 65536 65776 65840) 65840 (sh_size Elf64)
         = Ok size
      /\ load (growInPlace staticImage)
           (mkStaticBinaryELF 368 368 65536 65536 65776 65840) 65680 (st_name Elf64)
         = Ok st_name_value
      /\ 65705 = 65536 + off + st_name_value
      /\ 65536 + off <= 65705 < 65536 + off + size.
Proof.
  assert (H : symbolName Elf64 (growInPlace staticImage)
                (mkStaticBinaryELF 368 368 65536 65536 65776 65840) 65680 = Ok 65705)
    by (vm_compute; reflexivity).
  split; [exact H|].
  exact (proj2 (symbolName_inside_string_table Elf64 (growInPlace staticImage)
                  _ _ _ H ltac:(discriminate))).
Defined.


Lemma swift_dladdr_disabled_parser_witness :
  construct Elf64 cannotOpen = Ok empty
  /\ exists path,
      executablePathName (Some [x2f; x62; x69; x6e; x2f; x61]) proc_self_exe = Ok path
      /\ _swift_dladdr Elf64 cannotOpen (Some [x2f; x62; x69; x6e; x2f; x61])
           (mkStatics None false) 4198416
         = Ok (mkStatics (Some (mkBinary path empty)) true, 1, mkDl_info path 0 0 0)
      /\ forall addr',
          _swift_dladdr Elf64 cannotOpen (Some [x2f; x62; x69; x6e; x2f; x61])
            (mkStatics (Some (mkBinary path empty)) true) addr'
          = Ok (mkStatics (Some (mkBinary path empty)) true, 1, mkDl_info path 0 0 0).
Proof.
  split; [reflexivity|].
  apply (swift_dladdr_disabled_parser Elf64 cannotOpen
           (Some [x2f; x62; x69; x6e; x2f; x61]) None empty 4198416);
    reflexivity.
Defined.

Lemma grow_in_place_keeps_reads_witness :
  expandMapping (growInPlace headersFirstImage)
    (mkStaticBinaryELF 256 288 65536 65536 0 0) 280
  = (mkStaticBinaryELF 280 288 65536 65536 0 0, true)
  /\ load (growInPlace headersFirstImage)
       (mkStaticBinaryELF 256 288 65536 65536 0 0) 65664 (sh_offset Elf64) = Ok 256
  /\ load (growInPlace headersFirstImage)
       (mkStaticBinaryELF 280 288 65536 65536 0 0) 65664 (sh_offset Elf64) = Ok 256.
Proof.
  split; [vm_compute; reflexivity|]. split; [vm_compute; reflexivity|].
  apply (grow_in_place_keeps_reads (growInPlace headersFirstImage)
           (mkStaticBinaryELF 256 288 65536 65536 0 0)
           (mkStaticBinaryELF 280 288 65536 65536 0 0) 280 true).
  - vm_compute; reflexivity.
  - reflexivity.
  - vm_compute; reflexivity.
Defined.

End StaticELFMoreFacts.
